(** * Longest common suffix of a word list: brute force, buckets and trie

    A shallow embedding of [jeux_de_dictionnaires.py] and the properties of
    its three search strategies.

    Python values are modelled as follows.
    - A [str] is a list of characters; a one-character string (what iterating
      over a word yields) is a one-element list, and the marker ['END'] is the
      three-element list [E;N;D].  Characters are [ascii]; the proofs use of
      them only that equality is decidable.
    - A [dict] is an association list in insertion order with the keys kept
      unique by [dict_set]: assigning to a present key keeps its position,
      assigning to a new key appends it.  Iteration ([.items()]) follows the
      list.
    - A trie node holds either a nested dict or the integer [0], so the values
      are a two-constructor type [pyval].
    - A function that can raise returns an [option]; [None] is the raised
      exception. *)

From Stdlib Require Import List Arith ZArith Bool Ascii String Sorted
  Permutation Lia.
Import ListNotations.

Local Open Scope Z_scope.
#[local] Set Warnings "-register-all".

(** ** Strings *)

Abbreviation str := (list ascii).

Definition lit (s : string) : str := list_ascii_of_string s.

Definition len {A : Type} (l : list A) : Z := Z.of_nat (List.length l).

Fixpoint str_eqb (a b : str) : bool :=
  match a, b with
  | [], [] => true
  | x :: a', y :: b' => Ascii.eqb x y && str_eqb a' b'
  | _, _ => false
  end.

(** [w[i]] for a possibly negative index; [None] is [IndexError]. *)
Definition py_index {A : Type} (w : list A) (i : Z) : option A :=
  if 0 <=? i then nth_error w (Z.to_nat i)
  else if - len w <=? i then nth_error w (Z.to_nat (len w + i))
  else None.

(** ** Dictionaries *)

Section Dict.
Context {V : Type}.

Fixpoint dict_get (d : list (str * V)) (k : str) : option V :=
  match d with
  | [] => None
  | (k', v) :: d' => if str_eqb k k' then Some v else dict_get d' k
  end.

Definition dict_mem (k : str) (d : list (str * V)) : bool :=
  match dict_get d k with Some _ => true | None => false end.

Fixpoint dict_set (d : list (str * V)) (k : str) (v : V) : list (str * V) :=
  match d with
  | [] => [(k, v)]
  | (k', v') :: d' =>
      if str_eqb k k' then (k', v) :: d' else (k', v') :: dict_set d' k v
  end.
End Dict.

(** ** The suffix comparator *)

(** The [while] loop of [common_suffix].  [p] is the negative index of the
    source and [fuel] bounds the number of iterations; [suffix_loop_fuel]
    below shows that the bound used by [common_suffix] is never reached.
    The loop condition keeps both indices in range ([py_index_neg]), so the
    branch for [IndexError] is never taken. *)
Fixpoint suffix_loop (fuel : nat) (first_word second_word : str)
         (p : Z) (suffix : str) : str :=
  match fuel with
  | O => suffix
  | S fuel' =>
      if (- p <=? len first_word) && (- p <=? len second_word) then
        match py_index first_word p, py_index second_word p with
        | Some x, Some y =>
            if Ascii.eqb x y
            then suffix_loop fuel' first_word second_word (p - 1) (x :: suffix)
            else suffix
        | _, _ => suffix
        end
      else suffix
  end.

Definition common_suffix (first_word second_word : str) : str :=
  if (len first_word =? 0) || (len second_word =? 0) then []
  else if str_eqb first_word second_word then first_word
  else suffix_loop (S (List.length first_word)) first_word second_word (-1) [].

(** Longest common prefix, the mirror image used to reason about
    [common_suffix]. *)
Fixpoint lcp (a b : str) : str :=
  match a, b with
  | x :: a', y :: b' => if Ascii.eqb x y then x :: lcp a' b' else []
  | _, _ => []
  end.

(** ** Brute-force search *)

Definition result : Type := str * option (str * str).

(** Body of the inner loop for fixed [i] and [j]; both positions come from
    [range] and are within the list. *)
Definition lcs_step (words : list str) (i j : nat) (st : result) : result :=
  let wi := nth i words [] in
  let wj := nth j words [] in
  if str_eqb wi wj then st
  else
    let suffix := common_suffix wi wj in
    if len suffix >? len (fst st) then (suffix, Some (wi, wj)) else st.

Definition largest_common_suffix (words : list str) : result :=
  let n := List.length words in
  fold_left
    (fun st i =>
       fold_left (fun st j => lcs_step words i j st)
                 (seq (S i) (n - S i)) st)
    (seq 0 n) ([], None).

(** ** Bucketed search *)

(** Body of the loop of [last_char_map]; [acc] is [None] once [word[-1]] has
    raised [IndexError]. *)
Definition bucket_step (acc : option (list (str * list str))) (word : str)
  : option (list (str * list str)) :=
  match acc with
  | None => None
  | Some word_map =>
      match py_index word (-1) with
      | None => None
      | Some c =>
          let char := [c] in
          match dict_get word_map char with
          | None => Some (dict_set word_map char [word])
          | Some ws => Some (dict_set word_map char (ws ++ [word]))
          end
      end
  end.

Definition last_char_map (words : list str) : option (list (str * list str)) :=
  fold_left bucket_step words (Some []).

Definition largest_common_suffix2 (words : list str) : option result :=
  match last_char_map words with
  | None => None
  | Some word_map =>
      Some (fold_left
              (fun st kv =>
                 let '(suffix, couple) := largest_common_suffix (snd kv) in
                 if len suffix >? len (fst st) then (suffix, couple) else st)
              word_map ([], None))
  end.

(** ** Trie *)

Inductive pyval : Type :=
| PInt (z : Z)
| PDict (items : list (str * pyval)).

Definition dict : Type := list (str * pyval).

Definition END : str := lit "END".

(** Inserting the characters [cs] (a reversed word) below [node].  When a key
    holds an integer the source fails with [TypeError] on the next use of
    [node]. *)
Fixpoint insert_chars (cs : list ascii) (node : dict) : option dict :=
  match cs with
  | [] => Some (dict_set node END (PInt 0))
  | character :: cs' =>
      let node1 :=
        if negb (dict_mem [character] node)
        then dict_set node [character] (PDict [])
        else node in
      match dict_get node1 [character] with
      | Some (PDict child) =>
          match insert_chars cs' child with
          | Some child' => Some (dict_set node1 [character] (PDict child'))
          | None => None
          end
      | _ => None
      end
  end.

(** Body of the outer loop of [build_trie]. *)
Definition build_step (acc : option dict) (word : str) : option dict :=
  match acc with
  | None => None
  | Some trie => insert_chars (rev word) trie
  end.

Definition build_trie (words : list str) : option dict :=
  fold_left build_step words (Some []).

(** ** Trie search *)

(** Body of the loop of [walk] over the items of a node.  The source calls
    [walk] on dictionaries only: the root, and the values that pass the
    [isinstance] test. *)
Definition walk_step (walk : pyval -> list str)
           (best : list str) (kv : str * pyval) : list str :=
  match snd kv with
  | PInt _ => best
  | PDict _ =>
      let r := walk (snd kv) in
      if (len r >? 0) && (len r + 1 >? len best) then fst kv :: r else best
  end.

Fixpoint walk (trie : pyval) : list str :=
  match trie with
  | PInt _ => []
  | PDict items =>
      let best := fold_left (walk_step walk) items [] in
      if len best >? 0 then best
      else if len items >=? 2 then [END]
      else []
  end.

Definition largest_common_suffix3 (words : list str) : option (list str) :=
  match build_trie words with
  | None => None
  | Some global_trie => Some (walk (PDict global_trie))
  end.

(** ** Word extraction *)

Definition space : ascii := " "%char.
Definition newline : ascii := "010"%char.
Definition apostrophe : ascii := "'"%char.

(** The character class [[\n']] of the first substitution. *)
Definition is_break (c : ascii) : bool :=
  Ascii.eqb c newline || Ascii.eqb c apostrophe.

(** The character class [[!?,.;:]] of the second substitution. *)
Definition is_punct (c : ascii) : bool :=
  existsb (Ascii.eqb c) (lit "!?,.;:").

(** [str.isspace] on one character, for the code points below 256: the
    white space that [strip()] removes. *)
Definition is_space (c : ascii) : bool :=
  let n := nat_of_ascii c in
  ((9 <=? n)%nat && (n <=? 13)%nat) || ((28 <=? n)%nat && (n <=? 32)%nat)
  || (n =? 133)%nat || (n =? 160)%nat.

(** [re.sub(' +', ' ', s)]: the first space of a run is kept and the rest of
    the run is skipped; [in_run] tells that the previous character was a
    space. *)
Fixpoint squeeze (in_run : bool) (s : str) : str :=
  match s with
  | [] => []
  | c :: s' =>
      if Ascii.eqb c space
      then if in_run then squeeze true s' else space :: squeeze true s'
      else c :: squeeze false s'
  end.

Fixpoint lstrip (s : str) : str :=
  match s with
  | [] => []
  | c :: s' => if is_space c then lstrip s' else s
  end.

(** [s.strip()] *)
Definition strip (s : str) : str := rev (lstrip (rev (lstrip s))).

(** [s.split(sep)] for a one-character separator. *)
Fixpoint split_on (sep : ascii) (s : str) : list str :=
  match s with
  | [] => [[]]
  | c :: s' =>
      if Ascii.eqb c sep then [] :: split_on sep s'
      else match split_on sep s' with
           | w :: ws => (c :: w) :: ws
           | [] => [[c]]
           end
  end.

(** [extract_words]; [lower] stands for the built-in [str.lower]. *)
Definition extract_words (lower : str -> str) (corpus : str) : list str :=
  let corpus := lower corpus in
  let corpus := map (fun c => if is_break c then space else c) corpus in
  let corpus := filter (fun c => negb (is_punct c)) corpus in
  let corpus := strip (squeeze false corpus) in
  split_on space corpus.

(** ** Definitions used to state the properties *)

(** One step of a loop that keeps the first strictly better candidate:
    [cand x] is what the element [x] proposes, if anything, and [m] measures
    a state. *)
Definition pick {S X : Type} (m : S -> Z) (cand : X -> option S)
           (st : S) (x : X) : S :=
  match cand x with
  | Some r => if m r >? m st then r else st
  | None => st
  end.

(** Two strings that part at their first character: one of them is empty or
    their first characters differ. *)
Inductive diverge : str -> str -> Prop :=
| diverge_nil_l b : diverge [] b
| diverge_nil_r a : diverge a []
| diverge_cons x y a b : x <> y -> diverge (x :: a) (y :: b).

(** The pairs of positions in the order the two loops visit them. *)
Definition pairs (n : nat) : list (nat * nat) :=
  flat_map (fun i => map (pair i) (seq (S i) (n - S i))) (seq 0 n).

(** What the pair of positions [(i, j)] proposes: nothing when the two words
    are equal, otherwise their common suffix and the two words. *)
Definition pair_cand (words : list str) (ij : nat * nat) : option result :=
  let wi := nth (fst ij) words [] in
  let wj := nth (snd ij) words [] in
  if str_eqb wi wj then None else Some (common_suffix wi wj, Some (wi, wj)).

(** The measure of a search result: the length of its suffix. *)
Definition score (r : result) : Z := len (fst r).

(** The order in which the two loops visit the pairs of positions. *)
Definition lex_lt (a b : nat * nat) : Prop :=
  (fst a < fst b)%nat \/ (fst a = fst b /\ (snd a < snd b)%nat).

(** What the bucket map holds after the words [seen]: buckets contain only
    words seen, and every word seen is in the bucket of its last character. *)
Definition buckets_of (seen : list str) (word_map : list (str * list str))
  : Prop :=
  (forall k ws w, In (k, ws) word_map -> In w ws -> In w seen) /\
  (forall w, In w seen ->
             exists c ws, py_index w (-1) = Some c /\
                          dict_get word_map [c] = Some ws /\ In w ws).

(** What a bucket proposes: the result of the brute-force search on it. *)
Definition bucket_cand (kv : str * list str) : option result :=
  Some (largest_common_suffix (snd kv)).

(** The shape of a trie node: unique keys, the marker ['END'] holding [0],
    and one-character keys, drawn from [ok], holding non-empty nodes of the
    same shape. *)
Inductive trie_inv (ok : ascii -> Prop) (items : dict) : Prop :=
| trie_inv_node :
    NoDup (map fst items) ->
    (forall k v, In (k, v) items ->
       (k = END /\ v = PInt 0) \/
       (exists c child, k = [c] /\ ok c /\ v = PDict child /\
                        child <> [] /\ trie_inv ok child)) ->
    trie_inv ok items.

(** The node reached from [trie] along the characters [path]. *)
Fixpoint node_at (trie : dict) (path : list ascii) : option dict :=
  match path with
  | [] => Some trie
  | c :: path' =>
      match dict_get trie [c] with
      | Some (PDict child) => node_at child path'
      | _ => None
      end
  end.

(** [path] leads to a node marked as the end of a word. *)
Fixpoint has_word (trie : dict) (path : list ascii) : bool :=
  match path with
  | [] => dict_mem END trie
  | c :: path' =>
      match dict_get trie [c] with
      | Some (PDict child) => has_word child path'
      | _ => false
      end
  end.

(** [trie'] keeps every node of [trie] at its path, with all its keys in
    their order; new keys come after. *)
Definition extends (trie trie' : dict) : Prop :=
  forall path node,
    node_at trie path = Some node ->
    exists node' more,
      node_at trie' path = Some node' /\
      map fst node' = map fst node ++ more.

(** Characters of the words of a list. *)
Definition char_of (words : list str) (c : ascii) : Prop :=
  exists w, In w words /\ In c w.

(** The key under which a node stores the continuation [q]. *)
Definition first_key (q : list ascii) : str :=
  match q with
  | [] => END
  | c :: _ => [c]
  end.

(** A node with at least two entries sits at the end of [path]. *)
Definition branching (trie : dict) (path : list ascii) : Prop :=
  exists node, node_at trie path = Some node /\ (2 <= List.length node)%nat.

(** What an entry of a node proposes to the loop of [walk]. *)
Definition walk_cand (kv : str * pyval) : option (list str) :=
  match snd kv with
  | PInt _ => None
  | PDict _ =>
      let r := walk (snd kv) in
      if len r >? 0 then Some (fst kv :: r) else None
  end.

(** The keys along [path], closed by the marker. *)
Definition spell (path : list ascii) : list str :=
  map (fun c => [c]) path ++ [END].

(** No node of the trie branches. *)
Definition flat (trie : dict) : Prop := forall path, ~ branching trie path.

(** [path] leads to a branching point and no branching point is deeper. *)
Definition deepest (trie : dict) (path : list ascii) : Prop :=
  branching trie path /\
  forall path', branching trie path' ->
                (List.length path' <= List.length path)%nat.

(** Two different words occur in the list. *)
Definition distinct_pair (words : list str) : Prop :=
  exists u v, In u words /\ In v words /\ u <> v.

(** The agreement of the three searches, read on the lengths of what they
    return. *)
Definition agreement (words : list str) : Prop :=
  exists r2 r3,
    largest_common_suffix2 words = Some r2 /\
    largest_common_suffix3 words = Some r3 /\
    List.length (fst (largest_common_suffix words)) = List.length (fst r2) /\
    List.length (fst r2) = List.length r3.

(** The result of a search that found no pair. *)
Definition no_pair : result := ([], None).

(** Entries of a node as the trie builder leaves them: the marker holding
    [0], or a character of a word holding a dictionary. *)
Definition entry_shape (words : list str) (k : str) (v : pyval) : Prop :=
  (k = END /\ v = PInt 0) \/
  (exists c child, k = [c] /\ char_of words c /\ v = PDict child).

(** The last character of [w] is [c]. *)
Definition ends_with (c : ascii) (w : str) : bool :=
  match py_index w (-1) with
  | Some c' => Ascii.eqb c' c
  | None => false
  end.

(** The bucket of [c]: the words ending in [c], in their order, or no bucket
    when there is none. *)
Definition bucket (c : ascii) (words : list str) : option (list str) :=
  match filter (ends_with c) words with
  | [] => None
  | ws => Some ws
  end.

(** What the loop of [last_char_map] keeps true. *)
Definition bucket_inv (seen : list str) (word_map : list (str * list str))
  : Prop :=
  NoDup (map fst word_map) /\
  (forall k ws, In (k, ws) word_map -> exists c, k = [c]) /\
  (forall c, dict_get word_map [c] = bucket c seen).

(** No two spaces in a row. *)
Definition nodouble (s : str) : Prop :=
  forall l r, s <> l ++ space :: space :: r.

(** A character that [extract_words] leaves in no word. *)
Definition separator (c : ascii) : Prop :=
  c = space \/ c = newline \/ c = apostrophe \/ is_punct c = true.

(** A character that [extract_words] removes or strips. *)
Definition blank (c : ascii) : Prop :=
  is_space c = true \/ c = apostrophe \/ is_punct c = true.

(** * Properties *)

(** ** Running the code on small inputs *)

Example common_suffix_abcd :
  common_suffix (lit "abcd") (lit "ifgabcd") = lit "abcd".
Proof. reflexivity. Qed.

Example brute_force_chat :
  largest_common_suffix [lit "chat"; lit "rat"; lit "chien"]
  = (lit "at", Some (lit "chat", lit "rat")).
Proof. reflexivity. Qed.

Example bucketed_chat :
  largest_common_suffix2 [lit "chat"; lit "rat"; lit "chien"]
  = Some (lit "at", Some (lit "chat", lit "rat")).
Proof. reflexivity. Qed.

Example trie_chat :
  largest_common_suffix3 [lit "chat"; lit "rat"; lit "chien"]
  = Some [lit "t"; lit "a"; END].
Proof. reflexivity. Qed.

(** ** Strings and indexing *)

Lemma str_eqb_eq (a b : str) : str_eqb a b = true <-> a = b.
Proof.
  revert b; induction a as [|x a IH]; intros [|y b]; simpl;
    try (split; congruence).
  rewrite andb_true_iff, Ascii.eqb_eq, IH.
  split; [intros [-> ->]; reflexivity | intros H; injection H; auto].
Qed.

Lemma str_eqb_refl (a : str) : str_eqb a a = true.
Proof. apply str_eqb_eq; reflexivity. Qed.

Lemma str_eqb_neq (a b : str) : str_eqb a b = false <-> a <> b.
Proof.
  rewrite <- str_eqb_eq. destruct (str_eqb a b); split; congruence.
Qed.

Lemma str_eqb_sym (a b : str) : str_eqb a b = str_eqb b a.
Proof.
  destruct (str_eqb a b) eqn:E.
  - apply str_eqb_eq in E; subst; symmetry; apply str_eqb_refl.
  - apply str_eqb_neq in E. symmetry; apply str_eqb_neq; congruence.
Qed.

Lemma len_zero {A} (l : list A) : (len l =? 0) = true <-> l = [].
Proof.
  unfold len; rewrite Z.eqb_eq; destruct l; simpl; split; intros H;
    (reflexivity || discriminate || lia).
Qed.

(** A negative index [-(k+1)] reads position [k] of the reversed word. *)
Lemma py_index_neg {A} (w : list A) (k : nat) :
  (k < List.length w)%nat ->
  py_index w (- Z.of_nat (S k)) = nth_error (rev w) k.
Proof.
  intros Hk. unfold py_index, len.
  destruct (0 <=? - Z.of_nat (S k)) eqn:E1; [apply Z.leb_le in E1; lia|].
  destruct (- Z.of_nat (List.length w) <=? - Z.of_nat (S k)) eqn:E2;
    [|apply Z.leb_gt in E2; lia].
  replace (Z.to_nat (Z.of_nat (List.length w) + - Z.of_nat (S k)))
    with (List.length w - S k)%nat by lia.
  rewrite nth_error_rev.
  apply Nat.ltb_lt in Hk; rewrite Hk. reflexivity.
Qed.

Lemma skipn_nth_error {A} (l : list A) (k : nat) (x : A) :
  nth_error l k = Some x -> skipn k l = x :: skipn (S k) l.
Proof.
  revert k; induction l as [|y l IH]; intros [|k]; simpl; try discriminate.
  - intros H; injection H as ->; reflexivity.
  - intros H; apply IH in H. exact H.
Qed.

(** ** Longest common prefix *)

Lemma lcp_refl (a : str) : lcp a a = a.
Proof.
  induction a as [|x a IH]; simpl; [reflexivity|].
  rewrite Ascii.eqb_refl, IH; reflexivity.
Qed.

Lemma lcp_sym (a b : str) : lcp a b = lcp b a.
Proof.
  revert b; induction a as [|x a IH]; intros [|y b]; simpl; try reflexivity.
  rewrite (Ascii.eqb_sym y x).
  destruct (Ascii.eqb x y) eqn:E; [|reflexivity].
  apply Ascii.eqb_eq in E; subst. rewrite IH; reflexivity.
Qed.

Lemma lcp_nil_r (a : str) : lcp a [] = [].
Proof. destruct a; reflexivity. Qed.

Lemma lcp_app (p a b : str) : lcp (p ++ a) (p ++ b) = p ++ lcp a b.
Proof.
  induction p as [|x p IH]; simpl; [reflexivity|].
  rewrite Ascii.eqb_refl, IH; reflexivity.
Qed.

Lemma lcp_split (a b : str) :
  exists a' b', a = lcp a b ++ a' /\ b = lcp a b ++ b' /\ diverge a' b'.
Proof.
  revert b; induction a as [|x a IH]; intros b.
  - exists [], b; simpl; repeat split; constructor.
  - destruct b as [|y b].
    + exists (x :: a), []; simpl; repeat split; constructor.
    + simpl. destruct (Ascii.eqb x y) eqn:E.
      * apply Ascii.eqb_eq in E; subst y.
        destruct (IH b) as (a' & b' & Ha & Hb & Hd).
        exists a', b'; simpl; repeat split; try congruence; assumption.
      * apply Ascii.eqb_neq in E.
        exists (x :: a), (y :: b); simpl; repeat split. constructor; assumption.
Qed.

Lemma lcp_diverge (a b : str) : diverge a b -> lcp a b = [].
Proof.
  intros [b'|a'|x y a' b' Hxy]; simpl.
  - reflexivity.
  - apply lcp_nil_r.
  - apply Ascii.eqb_neq in Hxy; rewrite Hxy; reflexivity.
Qed.

(** ** The suffix comparator *)

Lemma suffix_loop_spec (a b : str) (fuel k : nat) (suffix : str) :
  (k <= List.length a)%nat ->
  (List.length a - k < fuel)%nat ->
  suffix_loop fuel a b (- Z.of_nat (S k)) suffix
  = rev (lcp (skipn k (rev a)) (skipn k (rev b))) ++ suffix.
Proof.
  revert k suffix; induction fuel as [|fuel IH]; intros k suffix Hk Hf; [lia|].
  cbn [suffix_loop]. unfold len at 1 2.
  destruct ((- - Z.of_nat (S k) <=? Z.of_nat (List.length a))
            && (- - Z.of_nat (S k) <=? Z.of_nat (List.length b))) eqn:G.
  - apply andb_true_iff in G as [Ga Gb].
    apply Z.leb_le in Ga, Gb.
    assert (Ka : (k < List.length a)%nat) by lia.
    assert (Kb : (k < List.length b)%nat) by lia.
    rewrite !py_index_neg by assumption.
    destruct (nth_error (rev a) k) as [x|] eqn:Ex;
      [|apply nth_error_None in Ex; rewrite length_rev in Ex; lia].
    destruct (nth_error (rev b) k) as [y|] eqn:Ey;
      [|apply nth_error_None in Ey; rewrite length_rev in Ey; lia].
    rewrite (skipn_nth_error _ _ _ Ex), (skipn_nth_error _ _ _ Ey).
    cbn [lcp]. destruct (Ascii.eqb x y); [|reflexivity].
    replace (- Z.of_nat (S k) - 1) with (- Z.of_nat (S (S k))) by lia.
    rewrite IH by lia. cbn [rev]. rewrite <- app_assoc. reflexivity.
  - apply andb_false_iff in G.
    destruct G as [G|G]; apply Z.leb_gt in G.
    + rewrite (skipn_all2 (rev a)) by (rewrite length_rev; lia).
      reflexivity.
    + rewrite (skipn_all2 (rev b)) by (rewrite length_rev; lia).
      rewrite lcp_nil_r. reflexivity.
Qed.

(** The bound on the iterations is never the reason the loop stops: more
    fuel gives the same result. *)
Lemma suffix_loop_fuel (a b : str) (fuel : nat) :
  (List.length a < fuel)%nat ->
  suffix_loop fuel a b (-1) [] = suffix_loop (S (List.length a)) a b (-1) [].
Proof.
  intros Hf.
  change (-1) with (- Z.of_nat (S 0)).
  rewrite !(suffix_loop_spec a b _ 0) by lia. reflexivity.
Qed.

(** [common_suffix] mirrors the longest common prefix of the reversed words. *)
Lemma common_suffix_lcp (a b : str) :
  common_suffix a b = rev (lcp (rev a) (rev b)).
Proof.
  unfold common_suffix.
  destruct (len a =? 0) eqn:Ea.
  { apply len_zero in Ea; subst; reflexivity. }
  destruct (len b =? 0) eqn:Eb.
  { apply len_zero in Eb; subst; simpl. rewrite lcp_nil_r; reflexivity. }
  cbn [orb]. destruct (str_eqb a b) eqn:E.
  - apply str_eqb_eq in E; subst. rewrite lcp_refl, rev_involutive; reflexivity.
  - change (-1) with (- Z.of_nat (S 0)).
    rewrite (suffix_loop_spec a b _ 0) by lia. simpl. apply app_nil_r.
Qed.

(** ** Loops that keep the first strictly better candidate

    The three searches share one loop shape: run over a sequence, skip some
    elements, and replace the current best by a candidate only when the
    candidate is strictly larger. *)

Section Pick.
Context {S X : Type}.
Variable m : S -> Z.
Variable cand : X -> option S.

Lemma pick_ge (st : S) (x : X) : m st <= m (pick m cand st x).
Proof.
  unfold pick. destruct (cand x) as [r|]; [|lia].
  destruct (m r >? m st) eqn:E; [apply Z.gtb_lt in E|]; lia.
Qed.

Lemma pick_cand_le (st : S) (x : X) (r : S) :
  cand x = Some r -> m r <= m (pick m cand st x).
Proof.
  unfold pick. intros ->.
  destruct (m r >? m st) eqn:E; [lia|].
  rewrite Z.gtb_ltb in E. apply Z.ltb_ge in E. exact E.
Qed.

Lemma fold_pick_ge (l : list X) (st : S) : m st <= m (fold_left (pick m cand) l st).
Proof.
  revert st; induction l as [|x l IH]; intros st; simpl; [lia|].
  specialize (IH (pick m cand st x)). pose proof (pick_ge st x). lia.
Qed.

Lemma fold_pick_upper (l : list X) (st : S) (x : X) (r : S) :
  In x l -> cand x = Some r -> m r <= m (fold_left (pick m cand) l st).
Proof.
  revert st; induction l as [|y l IH]; intros st Hin Hc; [contradiction|].
  simpl. destruct Hin as [->|Hin].
  - pose proof (pick_cand_le st x r Hc).
    pose proof (fold_pick_ge l (pick m cand st x)). lia.
  - apply IH; assumption.
Qed.

(** The result is the start value, or the first candidate of maximal
    measure. *)
Lemma fold_pick_first (l : list X) (st : S) :
  fold_left (pick m cand) l st = st \/
  exists l1 x l2 r,
    l = l1 ++ x :: l2 /\ cand x = Some r /\ fold_left (pick m cand) l st = r /\
    m st < m r /\
    forall y ry, In y l1 -> cand y = Some ry -> m ry < m r.
Proof.
  revert st; induction l as [|x l IH]; intros st; simpl; [left; reflexivity|].
  destruct (IH (pick m cand st x)) as [E|(l1 & y & l2 & r & El & Hc & E & Hlt & Hb)].
  - rewrite E. unfold pick.
    destruct (cand x) as [r|] eqn:Hc; [|left; reflexivity].
    destruct (m r >? m st) eqn:G; [|left; reflexivity].
    right. exists [], x, l, r. apply Z.gtb_lt in G.
    repeat split; try assumption. intros y ry [].
  - right. exists (x :: l1), y, l2, r.
    pose proof (pick_ge st x).
    repeat split; try assumption; try lia.
    + simpl; congruence.
    + intros z rz [<-|Hz] Hcz.
      * pose proof (pick_cand_le st x rz Hcz). lia.
      * eapply Hb; eassumption.
Qed.
End Pick.

Lemma fold_left_flat_map {A B C : Type} (f : A -> C -> A) (g : B -> list C)
      (l : list B) (a : A) :
  fold_left f (flat_map g l) a
  = fold_left (fun a x => fold_left f (g x) a) l a.
Proof.
  revert a; induction l as [|x l IH]; intros a; simpl; [reflexivity|].
  rewrite fold_left_app. apply IH.
Qed.

Lemma fold_left_ext {A B : Type} (f g : A -> B -> A) (l : list B) (a : A) :
  (forall a x, f a x = g a x) -> fold_left f l a = fold_left g l a.
Proof.
  intros H. revert a; induction l as [|x l IH]; intros a; simpl;
    [reflexivity|]. rewrite H. apply IH.
Qed.

Lemma fold_left_map {A B C : Type} (f : A -> C -> A) (g : B -> C)
      (l : list B) (a : A) :
  fold_left f (map g l) a = fold_left (fun a x => f a (g x)) l a.
Proof.
  revert a; induction l as [|x l IH]; intros a; simpl; [reflexivity|apply IH].
Qed.

(** ** Brute-force search *)

Lemma largest_common_suffix_pairs (words : list str) :
  largest_common_suffix words
  = fold_left (pick score (pair_cand words)) (pairs (List.length words))
              ([], None).
Proof.
  unfold largest_common_suffix, pairs.
  rewrite fold_left_flat_map.
  apply fold_left_ext. intros st i.
  rewrite fold_left_map.
  apply fold_left_ext. intros st' j.
  unfold lcs_step, pick, pair_cand, score. simpl.
  destruct (str_eqb _ _); reflexivity.
Qed.

Lemma in_pairs (n i j : nat) : In (i, j) (pairs n) <-> (i < j < n)%nat.
Proof.
  unfold pairs. rewrite in_flat_map. split.
  - intros (i' & Hi & Hj). apply in_map_iff in Hj as (j' & E & Hj).
    injection E as -> ->. apply in_seq in Hi, Hj. lia.
  - intros H. exists i. split; [apply in_seq; lia|].
    apply in_map_iff. exists j. split; [reflexivity|apply in_seq; lia].
Qed.

Section Sorted.
Context {A : Type} (R : A -> A -> Prop).

Lemma StronglySorted_app (l1 l2 : list A) :
  StronglySorted R l1 -> StronglySorted R l2 ->
  (forall x y, In x l1 -> In y l2 -> R x y) ->
  StronglySorted R (l1 ++ l2).
Proof.
  intros H1 H2 H12. induction H1 as [|a l1 H1 IH Ha]; simpl; [assumption|].
  constructor.
  - apply IH. intros x y Hx Hy. apply H12; [right|]; assumption.
  - apply Forall_app. split; [assumption|].
    apply Forall_forall. intros y Hy. apply H12; [left; reflexivity|assumption].
Qed.

(** In a strictly sorted list, what is smaller than an element stands
    before it. *)
Lemma StronglySorted_before (l1 l2 : list A) (x : A) :
  (forall a b, R a b -> R b a -> False) ->
  StronglySorted R (l1 ++ x :: l2) ->
  forall y, In y (l1 ++ x :: l2) -> R y x -> In y l1.
Proof.
  intros Hasym. induction l1 as [|a l1 IH]; simpl; intros Hs y Hy Hyx.
  - exfalso. destruct Hy as [<-|Hy]; [eapply Hasym; eassumption|].
    inversion Hs as [|? ? _ Hf]; subst.
    rewrite Forall_forall in Hf. eapply Hasym; [apply Hf|]; eassumption.
  - inversion Hs as [|? ? Hs' _]; subst.
    destruct Hy as [->|Hy]; [left; reflexivity|right].
    apply IH; assumption.
Qed.
End Sorted.

Lemma StronglySorted_lt_seq (start n : nat) : StronglySorted lt (seq start n).
Proof.
  revert start; induction n as [|n IH]; intros start; simpl; constructor.
  - apply IH.
  - apply Forall_forall. intros x Hx. apply in_seq in Hx. lia.
Qed.

Lemma lex_lt_asym (a b : nat * nat) : lex_lt a b -> lex_lt b a -> False.
Proof. unfold lex_lt; lia. Qed.

Lemma pairs_sorted (n : nat) : StronglySorted lex_lt (pairs n).
Proof.
  unfold pairs.
  generalize (seq 0 n) (StronglySorted_lt_seq 0 n).
  intros rows Hs. induction Hs as [|i rows Hs IH Hall]; simpl.
  - constructor.
  - rewrite Forall_forall in Hall.
    apply StronglySorted_app; [|assumption|].
    + generalize (seq (S i) (n - S i))
                 (StronglySorted_lt_seq (S i) (n - S i)).
      intros js Hjs. induction Hjs as [|j js Hjs IHj Hallj]; simpl;
        constructor; [assumption|].
      rewrite Forall_forall in Hallj.
      apply Forall_forall. intros x Hx.
      apply in_map_iff in Hx as (j' & <- & Hj').
      right; simpl; split; auto.
    + intros x y Hx Hy.
      apply in_map_iff in Hx as (j & <- & _).
      apply in_flat_map in Hy as (i' & Hi' & Hy).
      apply in_map_iff in Hy as (j' & <- & _).
      left; simpl. apply Hall; assumption.
Qed.

Lemma pairs_split_before (n : nat) (l1 l2 : list (nat * nat)) (ij : nat * nat) :
  pairs n = l1 ++ ij :: l2 ->
  forall ij', In ij' (pairs n) -> lex_lt ij' ij -> In ij' l1.
Proof.
  intros E. pose proof (pairs_sorted n) as Hs. rewrite E in *.
  apply StronglySorted_before; [apply lex_lt_asym|assumption].
Qed.

Lemma pair_cand_some (words : list str) (ij : nat * nat) (r : result) :
  pair_cand words ij = Some r <->
  nth (fst ij) words [] <> nth (snd ij) words [] /\
  r = (common_suffix (nth (fst ij) words []) (nth (snd ij) words []),
       Some (nth (fst ij) words [], nth (snd ij) words [])).
Proof.
  unfold pair_cand. cbv zeta.
  destruct (str_eqb _ _) eqn:E.
  - apply str_eqb_eq in E. split; [discriminate|]. intros [H _]; contradiction.
  - apply str_eqb_neq in E. split.
    + intros H; injection H as <-. split; [assumption|reflexivity].
    + intros [_ ->]; reflexivity.
Qed.

(** Every pair of positions holding different words is bounded by the
    result. *)
Lemma brute_force_upper_pos (words : list str) (i j : nat) :
  (i < j < List.length words)%nat ->
  nth i words [] <> nth j words [] ->
  (List.length (common_suffix (nth i words []) (nth j words []))
   <= List.length (fst (largest_common_suffix words)))%nat.
Proof.
  intros Hij Hne. rewrite largest_common_suffix_pairs.
  pose proof (fold_pick_upper score (pair_cand words)
                (pairs (List.length words)) ([], None) (i, j)) as H.
  specialize (H _ (proj2 (in_pairs _ i j) Hij)
                (proj2 (pair_cand_some words (i, j) _) (conj Hne eq_refl))).
  unfold score, len in *. cbn [fst snd] in H. lia.
Qed.

(** The result is the start value or comes from the first pair of positions
    that reaches the largest length. *)
Lemma brute_force_first (words : list str) :
  largest_common_suffix words = ([], None) \/
  exists i j,
    (i < j < List.length words)%nat /\
    nth i words [] <> nth j words [] /\
    common_suffix (nth i words []) (nth j words []) <> [] /\
    largest_common_suffix words
    = (common_suffix (nth i words []) (nth j words []),
       Some (nth i words [], nth j words [])) /\
    forall i' j',
      (i' < j' < List.length words)%nat -> lex_lt (i', j') (i, j) ->
      nth i' words [] <> nth j' words [] ->
      (List.length (common_suffix (nth i' words []) (nth j' words []))
       < List.length (common_suffix (nth i words []) (nth j words [])))%nat.
Proof.
  rewrite largest_common_suffix_pairs.
  destruct (fold_pick_first score (pair_cand words)
              (pairs (List.length words)) ([], None))
    as [E|(l1 & [i j] & l2 & r & El & Hc & E & Hlt & Hb)]; [left; exact E|].
  right. exists i, j.
  apply pair_cand_some in Hc as [Hne ->]. simpl in Hne.
  assert (Hin : In (i, j) (pairs (List.length words))).
  { rewrite El. apply in_or_app; right; left; reflexivity. }
  apply in_pairs in Hin.
  repeat split; try assumption; try lia.
  - intros E0. unfold score in Hlt. cbn [fst snd] in Hlt. rewrite E0 in Hlt.
    unfold len in Hlt; simpl in Hlt. lia.
  - intros i' j' Hij' Hlex Hne'.
    assert (Hin1 : In (i', j') l1).
    { eapply pairs_split_before; [eassumption| |assumption].
      apply in_pairs; assumption. }
    specialize (Hb (i', j') _ Hin1
                   (proj2 (pair_cand_some words (i', j') _)
                          (conj Hne' eq_refl))).
    unfold score, len in Hb; cbn [fst snd] in Hb. lia.
Qed.

Lemma common_suffix_sym (a b : str) : common_suffix a b = common_suffix b a.
Proof. rewrite !common_suffix_lcp, lcp_sym. reflexivity. Qed.

(** The same bound for any two different words of the list, whatever their
    positions. *)
Lemma brute_force_upper (words : list str) (u v : str) :
  In u words -> In v words -> u <> v ->
  (List.length (common_suffix u v)
   <= List.length (fst (largest_common_suffix words)))%nat.
Proof.
  intros Hu Hv Hne.
  apply (In_nth _ _ []) in Hu as (i & Hi & <-).
  apply (In_nth _ _ []) in Hv as (j & Hj & <-).
  destruct (Nat.lt_trichotomy i j) as [H|[H|H]].
  - apply brute_force_upper_pos; [lia|assumption].
  - subst; contradiction.
  - rewrite common_suffix_sym. apply brute_force_upper_pos; [lia|congruence].
Qed.

Lemma brute_force_attained (words : list str) :
  largest_common_suffix words = ([], None) \/
  exists u v, In u words /\ In v words /\ u <> v /\
              common_suffix u v <> [] /\
              largest_common_suffix words = (common_suffix u v, Some (u, v)).
Proof.
  destruct (brute_force_first words) as [E|(i & j & Hij & Hne & Hnil & E & _)];
    [left; exact E|right].
  exists (nth i words []), (nth j words []).
  repeat split; try assumption; apply nth_In; lia.
Qed.

(** ** Dictionaries *)

Section DictFacts.
Context {V : Type}.
Implicit Types (d : list (str * V)) (k : str) (v : V).

Lemma dict_get_in d k v : dict_get d k = Some v -> In (k, v) d.
Proof.
  induction d as [|[k' v'] d IH]; simpl; [discriminate|].
  destruct (str_eqb k k') eqn:E.
  - apply str_eqb_eq in E; subst. intros H; injection H as ->.
    left; reflexivity.
  - intros H; right; apply IH; exact H.
Qed.

Lemma dict_get_none d k : dict_get d k = None <-> ~ In k (map fst d).
Proof.
  induction d as [|[k' v'] d IH]; simpl; [tauto|].
  destruct (str_eqb k k') eqn:E.
  - apply str_eqb_eq in E; subst. split; [discriminate|]. tauto.
  - apply str_eqb_neq in E. rewrite IH. split; [|tauto].
    intros H [H'|H']; [congruence|tauto].
Qed.

Lemma dict_in_get d k v :
  NoDup (map fst d) -> In (k, v) d -> dict_get d k = Some v.
Proof.
  induction d as [|[k' v'] d IH]; simpl; [contradiction|].
  intros Hnd Hin. inversion Hnd as [|? ? Hk' Hnd']; subst.
  destruct Hin as [E|Hin].
  - injection E as -> ->. rewrite str_eqb_refl. reflexivity.
  - destruct (str_eqb k k') eqn:E; [|apply IH; assumption].
    apply str_eqb_eq in E; subst. exfalso. apply Hk'.
    apply in_map_iff. exists (k', v). split; [reflexivity|assumption].
Qed.

Lemma dict_get_set d k v k' :
  dict_get (dict_set d k v) k'
  = if str_eqb k' k then Some v else dict_get d k'.
Proof.
  induction d as [|[k0 v0] d IH]; simpl.
  - destruct (str_eqb k' k); reflexivity.
  - destruct (str_eqb k k0) eqn:E; simpl.
    + apply str_eqb_eq in E; subst k0.
      destruct (str_eqb k' k); reflexivity.
    + destruct (str_eqb k' k0) eqn:E'; [|exact IH].
      apply str_eqb_eq in E'; subst k0.
      rewrite str_eqb_sym, E. reflexivity.
Qed.

Lemma dict_set_in d k v k' v' :
  In (k', v') (dict_set d k v) -> (k' = k /\ v' = v) \/ In (k', v') d.
Proof.
  induction d as [|[k0 v0] d IH]; simpl.
  - intros [E|[]]. injection E as -> ->. left; split; reflexivity.
  - destruct (str_eqb k k0) eqn:E; simpl.
    + apply str_eqb_eq in E; subst k0.
      intros [E'|H]; [injection E' as -> ->; left; split; reflexivity|].
      right; right; assumption.
    + intros [E'|H]; [right; left; assumption|].
      destruct (IH H) as [H'|H']; [left|right; right]; assumption.
Qed.

(** Assigning keeps the keys in place: a present key stays where it is, a
    new key goes to the end. *)
Lemma dict_set_keys d k v :
  map fst (dict_set d k v)
  = if dict_mem k d then map fst d else map fst d ++ [k].
Proof.
  unfold dict_mem. induction d as [|[k0 v0] d IH]; simpl; [reflexivity|].
  destruct (str_eqb k k0) eqn:E; simpl; [reflexivity|].
  rewrite IH. destruct (dict_get d k); reflexivity.
Qed.

Lemma dict_mem_in k d : dict_mem k d = true <-> In k (map fst d).
Proof.
  unfold dict_mem. destruct (dict_get d k) eqn:E.
  - split; [intros _|reflexivity].
    apply dict_get_in in E. apply in_map_iff. eexists; split; [|exact E].
    reflexivity.
  - apply dict_get_none in E. split; [discriminate|contradiction].
Qed.

Lemma dict_set_nodup d k v :
  NoDup (map fst d) -> NoDup (map fst (dict_set d k v)).
Proof.
  intros Hnd. rewrite dict_set_keys.
  destruct (dict_mem k d) eqn:E; [assumption|].
  apply NoDup_app; [assumption|repeat constructor; intros []|].
  intros x Hx [<-|[]]. apply dict_mem_in in Hx. congruence.
Qed.
End DictFacts.

(** ** Bucketed search *)

Lemma py_index_last (w : str) :
  w <> [] -> py_index w (-1) = nth_error (rev w) 0.
Proof.
  intros Hw. change (-1) with (- Z.of_nat (S 0)).
  apply py_index_neg. destruct w; [contradiction|simpl; lia].
Qed.

(** Two words with a non-empty common suffix end in the same character. *)
Lemma common_suffix_last (u v : str) :
  common_suffix u v <> [] ->
  exists c, py_index u (-1) = Some c /\ py_index v (-1) = Some c.
Proof.
  rewrite common_suffix_lcp. intros H.
  assert (Hu : u <> []) by (intros ->; apply H; reflexivity).
  assert (Hv : v <> []).
  { intros ->; apply H; simpl. rewrite lcp_nil_r; reflexivity. }
  rewrite !py_index_last by assumption.
  destruct (rev u) as [|x ru]; [exfalso; apply H; reflexivity|].
  destruct (rev v) as [|y rv];
    [exfalso; apply H; rewrite lcp_nil_r; reflexivity|].
  simpl in *. destruct (Ascii.eqb x y) eqn:E; [|exfalso; apply H; reflexivity].
  apply Ascii.eqb_eq in E; subst. exists y; split; reflexivity.
Qed.

Lemma bucket_step_ok (seen : list str) (word_map : list (str * list str))
      (word : str) :
  buckets_of seen word_map -> word <> [] ->
  exists word_map', bucket_step (Some word_map) word = Some word_map' /\
                    buckets_of (seen ++ [word]) word_map'.
Proof.
  intros [Hsub Hall] Hw. unfold bucket_step.
  rewrite py_index_last by assumption.
  destruct (rev word) as [|c rw] eqn:Er.
  { exfalso. apply Hw. rewrite <- (rev_involutive word), Er. reflexivity. }
  cbn [nth_error].
  set (new := match dict_get word_map [c] with
              | None => [word] | Some ws => ws ++ [word] end).
  exists (dict_set word_map [c] new). split.
  { subst new. destruct (dict_get word_map [c]); reflexivity. }
  assert (Hlast : py_index word (-1) = Some c).
  { rewrite py_index_last by assumption. rewrite Er. reflexivity. }
  split.
  - intros k ws w Hin Hwin. apply in_or_app.
    apply dict_set_in in Hin as [[-> ->]|Hin].
    + subst new. destruct (dict_get word_map [c]) as [ws|] eqn:G.
      * apply in_app_or in Hwin as [Hwin|Hwin]; [left|right; exact Hwin].
        eapply Hsub; [apply dict_get_in; exact G|exact Hwin].
      * right; exact Hwin.
    + left. eapply Hsub; eassumption.
  - intros w Hin. apply in_app_or in Hin as [Hin|[<-|[]]].
    + destruct (Hall w Hin) as (c' & ws & Hc' & Hg & Hws).
      exists c'. rewrite dict_get_set.
      destruct (str_eqb [c'] [c]) eqn:E.
      * apply str_eqb_eq in E. injection E as ->.
        exists new. repeat split; try assumption.
        subst new. rewrite Hg. apply in_or_app; left; exact Hws.
      * exists ws. repeat split; assumption.
    + exists c, new. rewrite dict_get_set, str_eqb_refl.
      repeat split; try assumption.
      subst new. destruct (dict_get word_map [c]);
        [apply in_or_app; right|]; left; reflexivity.
Qed.

Lemma last_char_map_fold (words : list str) :
  last_char_map words = fold_left bucket_step words (Some []).
Proof. reflexivity. Qed.

Lemma bucket_fold_ok (words seen : list str)
      (word_map : list (str * list str)) :
  buckets_of seen word_map -> (forall w, In w words -> w <> []) ->
  exists word_map', fold_left bucket_step words (Some word_map) = Some word_map'
                    /\ buckets_of (seen ++ words) word_map'.
Proof.
  revert seen word_map; induction words as [|w words IH];
    intros seen word_map Hb Hne; cbn [fold_left].
  - exists word_map. rewrite app_nil_r. split; [reflexivity|assumption].
  - destruct (bucket_step_ok seen word_map w Hb) as (m1 & E1 & Hb1).
    { apply Hne; left; reflexivity. }
    rewrite E1.
    destruct (IH (seen ++ [w]) m1 Hb1) as (m2 & E2 & Hb2).
    { intros w' Hw'; apply Hne; right; assumption. }
    exists m2. rewrite <- app_assoc in Hb2. split; assumption.
Qed.

Lemma last_char_map_ok (words : list str) :
  (forall w, In w words -> w <> []) ->
  exists word_map, last_char_map words = Some word_map /\
                   buckets_of words word_map.
Proof.
  intros Hne. rewrite last_char_map_fold.
  apply (bucket_fold_ok words [] []); [|assumption].
  split; [intros k ws w []|intros w []].
Qed.

(** An empty word makes [word[-1]] raise, and the exception ends the loop. *)
Lemma bucket_fold_none (words : list str) :
  fold_left bucket_step words None = None.
Proof. induction words; simpl; auto. Qed.

Lemma last_char_map_empty_word (words : list str) :
  In [] words -> last_char_map words = None.
Proof.
  rewrite last_char_map_fold. generalize (Some (@nil (str * list str))).
  induction words as [|w words IH]; intros acc; [contradiction|].
  intros [->|Hin]; simpl.
  - destruct acc; simpl; apply bucket_fold_none.
  - apply IH; assumption.
Qed.

Lemma largest_common_suffix2_fold (words : list str) :
  largest_common_suffix2 words
  = match last_char_map words with
    | None => None
    | Some word_map =>
        Some (fold_left (pick score bucket_cand) word_map ([], None))
    end.
Proof.
  unfold largest_common_suffix2.
  destruct (last_char_map words) as [word_map|]; [|reflexivity].
  apply f_equal. apply fold_left_ext. intros st kv.
  unfold pick, bucket_cand, score.
  destruct (largest_common_suffix (snd kv)); reflexivity.
Qed.

(** Without empty words the bucketed search returns, and the length of its
    suffix is that of the brute-force search. *)
Lemma bucketed_length (words : list str) :
  (forall w, In w words -> w <> []) ->
  exists r, largest_common_suffix2 words = Some r /\
            List.length (fst r)
            = List.length (fst (largest_common_suffix words)).
Proof.
  intros Hne. rewrite largest_common_suffix2_fold.
  destruct (last_char_map_ok words Hne) as (m & -> & Hsub & Hall).
  eexists; split; [reflexivity|].
  apply Nat.le_antisymm.
  - destruct (fold_pick_first score bucket_cand m ([], None))
      as [->|(l1 & [k ws] & l2 & r & El & Hc & -> & _ & _)];
      [simpl; lia|].
    injection Hc as <-. simpl.
    destruct (brute_force_attained ws)
      as [->|(u & v & Hu & Hv & Huv & _ & ->)]; [simpl; lia|].
    assert (Hin : In (k, ws) m).
    { rewrite El; apply in_or_app; right; left; reflexivity. }
    apply brute_force_upper; eauto.
  - destruct (brute_force_attained words)
      as [->|(u & v & Hu & Hv & Huv & Hnil & ->)]; [simpl; lia|].
    destruct (common_suffix_last u v Hnil) as (c & Hcu & Hcv).
    destruct (Hall u Hu) as (cu & wsu & Hcu' & Hgu & Hinu).
    destruct (Hall v Hv) as (cv & wsv & Hcv' & Hgv & Hinv).
    assert (cu = c) by congruence. assert (cv = c) by congruence. subst cu cv.
    assert (wsv = wsu) by congruence. subst wsv.
    pose proof (fold_pick_upper score bucket_cand m ([], None)
                  ([c], wsu) _ (dict_get_in _ _ _ Hgu) eq_refl) as Hup.
    pose proof (brute_force_upper wsu u v Hinu Hinv Huv) as Hbf.
    unfold score, len in *. cbn [fst snd] in *. lia.
Qed.

(** ** Trie construction *)

(** Induction over nested dictionaries. *)
Lemma pyval_nested_ind (P : pyval -> Prop) :
  (forall z, P (PInt z)) ->
  (forall items, Forall (fun kv => P (snd kv)) items -> P (PDict items)) ->
  forall v, P v.
Proof.
  intros Hint Hdict.
  fix rec 1. intros [z|items]; [apply Hint|].
  apply Hdict. induction items as [|[k v] items IH]; constructor.
  - apply rec.
  - exact IH.
Qed.

Lemma char_key_not_END (c : ascii) : str_eqb [c] END = false.
Proof. simpl. rewrite andb_false_r. reflexivity. Qed.

Lemma END_not_char_key (c : ascii) : str_eqb END [c] = false.
Proof. rewrite str_eqb_sym. apply char_key_not_END. Qed.

Lemma char_key_eqb (c c' : ascii) : str_eqb [c] [c'] = Ascii.eqb c c'.
Proof. simpl. apply andb_true_r. Qed.

Lemma dict_set_set {V} (d : list (str * V)) (k : str) (v v' : V) :
  dict_set (dict_set d k v) k v' = dict_set d k v'.
Proof.
  induction d as [|[k0 v0] d IH]; simpl.
  - rewrite str_eqb_refl. reflexivity.
  - destruct (str_eqb k k0) eqn:E; simpl; rewrite E; [reflexivity|].
    rewrite IH. reflexivity.
Qed.

Lemma dict_set_not_nil {V} (d : list (str * V)) (k : str) (v : V) :
  dict_set d k v <> [].
Proof.
  destruct d as [|[k0 v0] d]; simpl; [discriminate|].
  destruct (str_eqb k k0); discriminate.
Qed.

(** The step of [insert_chars], with the creation of the missing child
    folded into the lookup. *)
Lemma insert_chars_cons (c : ascii) (cs : list ascii) (node : dict) :
  insert_chars (c :: cs) node
  = match dict_get node [c] with
    | Some (PInt _) => None
    | Some (PDict child) =>
        option_map (fun child' => dict_set node [c] (PDict child'))
                   (insert_chars cs child)
    | None =>
        option_map (fun child' => dict_set node [c] (PDict child'))
                   (insert_chars cs [])
    end.
Proof.
  cbn [insert_chars]. unfold dict_mem.
  destruct (dict_get node [c]) as [[z|child]|] eqn:G; cbn [negb].
  - rewrite G. reflexivity.
  - rewrite G. destruct (insert_chars cs child); reflexivity.
  - rewrite dict_get_set, str_eqb_refl.
    destruct (insert_chars cs []); cbn [option_map]; [|reflexivity].
    rewrite dict_set_set. reflexivity.
Qed.

Lemma trie_inv_nil (ok : ascii -> Prop) : trie_inv ok [].
Proof. constructor; [constructor|intros k v []]. Qed.

Lemma trie_inv_child (ok : ascii -> Prop) (trie : dict) (c : ascii)
      (v : pyval) :
  trie_inv ok trie -> dict_get trie [c] = Some v ->
  exists child, v = PDict child /\ ok c /\ child <> [] /\ trie_inv ok child.
Proof.
  intros [Hnd Hent] G. apply dict_get_in in G.
  destruct (Hent _ _ G) as [[E _]|(c' & child & E & Hok & -> & Hne & Hinv)].
  - discriminate.
  - injection E as ->. exists child; auto.
Qed.

Lemma has_word_nil_trie (path : list ascii) : has_word [] path = false.
Proof. destruct path; reflexivity. Qed.

(** Inserting a word into a well-shaped trie succeeds, keeps the shape, adds
    exactly that word, and keeps what was there. *)
Lemma insert_chars_ok (ok : ascii -> Prop) (cs : list ascii) :
  forall node,
    trie_inv ok node -> (forall c, In c cs -> ok c) ->
    exists node',
      insert_chars cs node = Some node' /\
      trie_inv ok node' /\ node' <> [] /\
      (forall path, has_word node' path = true
                    <-> path = cs \/ has_word node path = true).
Proof.
  induction cs as [|c cs IH]; intros node Hinv Hok.
  - exists (dict_set node END (PInt 0)). split; [reflexivity|].
    destruct Hinv as [Hnd Hent].
    split; [|split; [apply dict_set_not_nil|]].
    + constructor; [apply dict_set_nodup; assumption|].
      intros k v Hin. apply dict_set_in in Hin as [[-> ->]|Hin]; auto.
    + intros [|c path]; cbn [has_word].
      * unfold dict_mem. rewrite dict_get_set, str_eqb_refl. tauto.
      * rewrite dict_get_set, char_key_not_END.
        split; [auto|]. intros [E|H]; [discriminate|exact H].
  - rewrite insert_chars_cons.
    set (child0 := match dict_get node [c] with
                   | Some (PDict child) => child | _ => [] end).
    assert (Hchild0 : trie_inv ok child0).
    { subst child0. destruct (dict_get node [c]) as [v|] eqn:G;
        [|apply trie_inv_nil].
      destruct (trie_inv_child _ _ _ _ Hinv G) as (child & -> & _ & _ & H).
      exact H. }
    destruct (IH child0 Hchild0) as (child' & Ei & Hinv' & Hne' & Hw').
    { intros c' Hc'. apply Hok; right; exact Hc'. }
    exists (dict_set node [c] (PDict child')). split.
    { subst child0. destruct (dict_get node [c]) as [v|] eqn:G.
      - destruct (trie_inv_child _ _ _ _ Hinv G) as (child & -> & _).
        rewrite Ei. reflexivity.
      - rewrite Ei. reflexivity. }
    assert (Hw0 : forall path,
               has_word node (c :: path) = has_word child0 path).
    { intros path. cbn [has_word]. subst child0.
      destruct (dict_get node [c]) as [v|] eqn:G.
      - destruct (trie_inv_child _ _ _ _ Hinv G) as (child & -> & _).
        reflexivity.
      - symmetry. apply has_word_nil_trie. }
    destruct Hinv as [Hnd Hent].
    split; [|split; [apply dict_set_not_nil|]].
    + constructor; [apply dict_set_nodup; assumption|].
      intros k v Hin. apply dict_set_in in Hin as [[-> ->]|Hin]; auto.
      right. exists c, child'.
      split; [reflexivity|]. split; [apply Hok; left; reflexivity|]. auto.
    + intros [|c2 path].
      * cbn [has_word]. unfold dict_mem.
        rewrite dict_get_set, END_not_char_key.
        split; [auto|]. intros [E|H]; [discriminate|exact H].
      * destruct (Ascii.eqb c2 c) eqn:E.
        -- apply Ascii.eqb_eq in E; subst c2.
           rewrite Hw0. cbn [has_word].
           rewrite dict_get_set, str_eqb_refl, Hw'.
           split; (intros [H|H]; [left|right; exact H]); congruence.
        -- cbn [has_word].
           rewrite dict_get_set, char_key_eqb, E.
           apply Ascii.eqb_neq in E.
           split; [auto|]. intros [H|H]; [congruence|exact H].
Qed.

Lemma insert_chars_extends (cs : list ascii) :
  forall node node',
    insert_chars cs node = Some node' -> extends node node'.
Proof.
  induction cs as [|c cs IH]; intros node node' Ei.
  - injection Ei as <-. intros [|c2 path] d Hd; cbn [node_at] in *.
    + injection Hd as <-.
      exists (dict_set node END (PInt 0)),
             (if dict_mem END node then [] else [END]).
      split; [reflexivity|]. rewrite dict_set_keys.
      destruct (dict_mem END node); [rewrite app_nil_r|]; reflexivity.
    + rewrite dict_get_set, char_key_not_END.
      exists d, []. rewrite app_nil_r. split; [exact Hd|reflexivity].
  - rewrite insert_chars_cons in Ei.
    set (child0 := match dict_get node [c] with
                   | Some (PDict child) => child | _ => [] end).
    assert (Ei' : exists child', insert_chars cs child0 = Some child' /\
                                 node' = dict_set node [c] (PDict child')).
    { subst child0. destruct (dict_get node [c]) as [[z|child]|];
        [discriminate| |];
        (destruct (insert_chars cs _) as [child'|]; [|discriminate]);
        injection Ei as <-; exists child'; split; reflexivity. }
    destruct Ei' as (child' & Ei' & ->).
    intros [|c2 path] d Hd; cbn [node_at] in *.
    + injection Hd as <-.
      exists (dict_set node [c] (PDict child')),
             (if dict_mem [c] node then [] else [[c]]).
      split; [reflexivity|]. rewrite dict_set_keys.
      destruct (dict_mem [c] node); [rewrite app_nil_r|]; reflexivity.
    + rewrite dict_get_set, char_key_eqb.
      destruct (Ascii.eqb c2 c) eqn:E.
      * apply Ascii.eqb_eq in E; subst c2.
        apply (IH _ _ Ei'). subst child0.
        destruct (dict_get node [c]) as [[z|child]|]; try discriminate.
        exact Hd.
      * exists d, []. rewrite app_nil_r. split; [exact Hd|reflexivity].
Qed.

Lemma extends_refl (trie : dict) : extends trie trie.
Proof.
  intros path d Hd. exists d, []. rewrite app_nil_r. auto.
Qed.

Lemma extends_trans (t1 t2 t3 : dict) :
  extends t1 t2 -> extends t2 t3 -> extends t1 t3.
Proof.
  intros H12 H23 path d Hd.
  destruct (H12 _ _ Hd) as (d2 & m2 & Hd2 & E2).
  destruct (H23 _ _ Hd2) as (d3 & m3 & Hd3 & E3).
  exists d3, (m2 ++ m3). rewrite E3, E2, app_assoc. auto.
Qed.

Lemma build_trie_fold (words : list str) :
  build_trie words = fold_left build_step words (Some []).
Proof. reflexivity. Qed.

Lemma build_fold_ok (ok : ascii -> Prop) (words : list str) :
  forall trie,
    trie_inv ok trie ->
    (forall w c, In w words -> In c w -> ok c) ->
    exists trie',
      fold_left build_step words (Some trie) = Some trie' /\
      trie_inv ok trie' /\ extends trie trie' /\
      (forall path, has_word trie' path = true
                    <-> has_word trie path = true
                        \/ exists w, In w words /\ path = rev w).
Proof.
  induction words as [|w words IH]; intros trie Hinv Hok; cbn [fold_left].
  - exists trie. split; [reflexivity|]. split; [exact Hinv|].
    split; [apply extends_refl|]. intros path. split; [auto|].
    intros [H|(w & [] & _)]; exact H.
  - destruct (insert_chars_ok ok (rev w) trie Hinv)
      as (t1 & E1 & Hinv1 & _ & Hw1).
    { intros c Hc. apply (Hok w); [left; reflexivity|].
      apply in_rev; exact Hc. }
    cbn [build_step]. rewrite E1. fold (build_step (Some t1)).
    destruct (IH t1 Hinv1) as (t2 & E2 & Hinv2 & Hext2 & Hw2).
    { intros w' c Hw' Hc. apply (Hok w'); [right|]; assumption. }
    exists t2. split; [exact E2|]. split; [exact Hinv2|]. split.
    { eapply extends_trans; [eapply insert_chars_extends|]; eassumption. }
    intros path. rewrite Hw2, Hw1. split.
    + intros [[->|H]|(w' & Hin & ->)]; eauto.
      * right; exists w; split; [left|]; reflexivity.
      * right; exists w'; split; [right|]; auto.
    + intros [H|(w' & [<-|Hin] & ->)]; eauto.
Qed.

(** [build_trie] returns a well-shaped trie that holds exactly the reversed
    words. *)
Lemma build_trie_ok (words : list str) :
  exists trie,
    build_trie words = Some trie /\
    trie_inv (char_of words) trie /\
    (forall path, has_word trie path = true
                  <-> exists w, In w words /\ path = rev w).
Proof.
  rewrite build_trie_fold.
  destruct (build_fold_ok (char_of words) words [] (trie_inv_nil _))
    as (trie & E & Hinv & _ & Hw).
  { intros w c Hw Hc. exists w; auto. }
  exists trie. split; [exact E|]. split; [exact Hinv|].
  intros path. rewrite Hw, has_word_nil_trie. split.
  - intros [H|H]; [discriminate|exact H].
  - auto.
Qed.

(** ** Nodes, words and branching points *)

Lemma node_at_inv (ok : ascii -> Prop) (path : list ascii) :
  forall trie node,
    trie_inv ok trie -> node_at trie path = Some node -> trie_inv ok node.
Proof.
  induction path as [|c path IH]; intros trie node Hinv Hn; cbn [node_at] in Hn.
  - injection Hn as <-. exact Hinv.
  - destruct (dict_get trie [c]) as [v|] eqn:G; [|discriminate].
    destruct (trie_inv_child _ _ _ _ Hinv G) as (child & -> & _ & _ & Hc).
    eapply IH; eassumption.
Qed.

Lemma has_word_app (p q : list ascii) :
  forall trie node,
    node_at trie p = Some node -> has_word trie (p ++ q) = has_word node q.
Proof.
  induction p as [|c p IH]; intros trie node Hn; cbn [node_at] in Hn.
  - injection Hn as <-. reflexivity.
  - cbn [app has_word].
    destruct (dict_get trie [c]) as [[z|child]|]; try discriminate.
    apply IH; exact Hn.
Qed.

Lemma has_word_node (p q : list ascii) :
  forall trie,
    has_word trie (p ++ q) = true ->
    exists node, node_at trie p = Some node /\ has_word node q = true.
Proof.
  induction p as [|c p IH]; intros trie Hw.
  - exists trie. split; [reflexivity|exact Hw].
  - cbn [app has_word node_at] in *.
    destruct (dict_get trie [c]) as [[z|child]|]; try discriminate.
    apply IH; exact Hw.
Qed.

Lemma has_word_key (node : dict) (q : list ascii) :
  has_word node q = true -> In (first_key q) (map fst node).
Proof.
  destruct q as [|c q]; cbn [has_word first_key].
  - apply dict_mem_in.
  - intros H. apply dict_mem_in. unfold dict_mem.
    destruct (dict_get node [c]); [reflexivity|discriminate].
Qed.

(** Every non-empty node of a well-shaped trie lies on the path of a word. *)
Lemma trie_inv_live (ok : ascii -> Prop) (v : pyval) :
  forall node, v = PDict node -> trie_inv ok node -> node <> [] ->
               exists q, has_word node q = true.
Proof.
  induction v as [z|items IH] using pyval_nested_ind;
    intros node E Hinv Hne; [discriminate|].
  injection E as <-.
  destruct items as [|[k v] items]; [contradiction|].
  inversion IH as [|? ? IHv _]; subst. cbn [snd] in IHv.
  destruct Hinv as [Hnd Hent].
  destruct (Hent k v (or_introl eq_refl))
    as [[-> ->]|(c & child & -> & _ & -> & Hcne & Hci)].
  - exists []. reflexivity.
  - destruct (IHv child eq_refl Hci Hcne) as (q & Hq).
    exists (c :: q). cbn [has_word dict_get]. rewrite str_eqb_refl. exact Hq.
Qed.

(** Every entry of a node starts the continuation of some word. *)
Lemma entry_word (ok : ascii -> Prop) (node : dict) (k : str) (v : pyval) :
  trie_inv ok node -> In (k, v) node ->
  exists q, has_word node q = true /\ first_key q = k.
Proof.
  intros Hinv Hin. pose proof Hinv as [Hnd Hent].
  destruct (Hent k v Hin) as [[-> ->]|(c & child & -> & _ & -> & Hcne & Hci)].
  - exists []. split; [|reflexivity]. cbn [has_word].
    unfold dict_mem. rewrite (dict_in_get _ _ _ Hnd Hin). reflexivity.
  - destruct (trie_inv_live ok (PDict child) child eq_refl Hci Hcne)
      as (q & Hq).
    exists (c :: q). split; [|reflexivity]. cbn [has_word].
    rewrite (dict_in_get _ _ _ Hnd Hin). exact Hq.
Qed.

Lemma first_key_diverge (a b : list ascii) :
  first_key a <> first_key b -> diverge a b /\ a <> b.
Proof.
  destruct a as [|x a], b as [|y b]; cbn [first_key]; intros H.
  - contradiction.
  - split; [constructor|discriminate].
  - split; [constructor|discriminate].
  - split; [constructor|]; congruence.
Qed.

Lemma diverge_first_key (a b : list ascii) :
  diverge a b -> a <> b -> first_key a <> first_key b.
Proof.
  intros [b'|a'|x y a' b' Hxy] Hne.
  - destruct b'; [contradiction|discriminate].
  - destruct a'; [contradiction|discriminate].
  - cbn [first_key]. congruence.
Qed.

Lemma two_keys {A} (l : list A) (x y : A) :
  In x l -> In y l -> x <> y -> (2 <= List.length l)%nat.
Proof.
  destruct l as [|a [|b l]]; simpl; try lia.
  intros [<-|[]] [<-|[]] H. contradiction.
Qed.

(** A branching point is where the paths of two different words part. *)
Lemma branching_words (ok : ascii -> Prop) (trie : dict) (p : list ascii) :
  trie_inv ok trie -> branching trie p ->
  exists a b, has_word trie a = true /\ has_word trie b = true /\
              a <> b /\ lcp a b = p.
Proof.
  intros Hinv (node & Hn & Hlen).
  pose proof (node_at_inv ok p trie node Hinv Hn) as Hni.
  destruct node as [|[k1 v1] [|[k2 v2] node]]; simpl in Hlen; try lia.
  destruct (entry_word ok _ k1 v1 Hni (or_introl eq_refl)) as (q1 & Hq1 & K1).
  destruct (entry_word ok _ k2 v2 Hni (or_intror (or_introl eq_refl)))
    as (q2 & Hq2 & K2).
  assert (Hk : first_key q1 <> first_key q2).
  { rewrite K1, K2. destruct Hni as [Hnd _]. simpl in Hnd.
    inversion Hnd as [|? ? Hnot _]. intros E. apply Hnot.
    left; symmetry; exact E. }
  apply first_key_diverge in Hk as [Hd Hne].
  exists (p ++ q1), (p ++ q2).
  rewrite !(has_word_app p _ trie _ Hn), lcp_app, (lcp_diverge _ _ Hd).
  rewrite app_nil_r. repeat split; auto.
  intros E; apply app_inv_head in E; contradiction.
Qed.

(** Two different words part at a branching point. *)
Lemma words_branching (trie : dict) (a b : list ascii) :
  has_word trie a = true -> has_word trie b = true -> a <> b ->
  branching trie (lcp a b).
Proof.
  intros Ha Hb Hne.
  destruct (lcp_split a b) as (a' & b' & Ea & Eb & Hd).
  rewrite Ea in Ha. rewrite Eb in Hb.
  apply has_word_node in Ha as (na & Hna & Hwa).
  apply has_word_node in Hb as (nb & Hnb & Hwb).
  assert (nb = na) by congruence; subst nb.
  exists na. split; [exact Hna|].
  rewrite <- (length_map fst).
  apply (two_keys (map fst na) (first_key a') (first_key b'));
    auto using has_word_key.
  apply diverge_first_key; [exact Hd|]. congruence.
Qed.

(** ** Trie search *)

Lemma walk_unfold (items : dict) :
  walk (PDict items)
  = let best := fold_left (pick len walk_cand) items [] in
    if len best >? 0 then best
    else if len items >=? 2 then [END]
    else [].
Proof.
  cbn [walk].
  replace (fold_left (walk_step walk) items [])
    with (fold_left (pick len walk_cand) items []); [reflexivity|].
  apply fold_left_ext. intros best [k v].
  unfold walk_step, pick, walk_cand. cbn [fst snd].
  destruct v as [z|child]; [reflexivity|].
  destruct (len (walk (PDict child)) >? 0); [|reflexivity].
  cbn [andb]. unfold len. cbn [List.length].
  rewrite Nat2Z.inj_succ, <- Z.add_1_r. reflexivity.
Qed.

Lemma branching_root (trie : dict) :
  branching trie [] <-> (2 <= List.length trie)%nat.
Proof.
  unfold branching. cbn [node_at]. split.
  - intros (node & E & H). injection E as <-. exact H.
  - intros H. exists trie. auto.
Qed.

Lemma branching_cons (trie : dict) (c : ascii) (path : list ascii) :
  branching trie (c :: path) <->
  exists child, dict_get trie [c] = Some (PDict child) /\
                branching child path.
Proof.
  unfold branching. cbn [node_at]. split.
  - intros (node & E & H).
    destruct (dict_get trie [c]) as [[z|child]|]; try discriminate.
    exists child. split; [reflexivity|]. exists node; auto.
  - intros (child & -> & node & E & H). exists node; auto.
Qed.

Lemma spell_length (path : list ascii) :
  List.length (spell path) = S (List.length path).
Proof. unfold spell. rewrite length_app, length_map. simpl. lia. Qed.

Lemma len_pos_iff {A} (l : list A) : (len l >? 0) = true <-> l <> [].
Proof.
  unfold len. rewrite Z.gtb_lt. destruct l; simpl; split; intros H;
    (lia || congruence).
Qed.

(** [walk] returns nothing on a trie without branching point and otherwise
    spells the way to a deepest one. *)
Lemma walk_spec (ok : ascii -> Prop) (v : pyval) :
  forall trie, v = PDict trie -> trie_inv ok trie ->
    (walk v = [] /\ flat trie) \/
    (exists path, walk v = spell path /\ deepest trie path).
Proof.
  induction v as [z|items IH] using pyval_nested_ind;
    intros trie E Hinv; [discriminate|].
  injection E as <-. rewrite Forall_forall in IH.
  pose proof Hinv as [Hnd Hent].
  (* the recursive calls, one per child *)
  assert (Hrec : forall c child,
             dict_get items [c] = Some (PDict child) ->
             In ([c], PDict child) items /\
             ((walk (PDict child) = [] /\ flat child) \/
              (exists path, walk (PDict child) = spell path /\
                            deepest child path))).
  { intros c child G.
    destruct (trie_inv_child _ _ _ _ Hinv G) as (ch & Ech & _ & _ & Hci).
    injection Ech as <-. apply dict_get_in in G. split; [exact G|].
    exact (IH _ G child eq_refl Hci). }
  rewrite walk_unfold. cbv zeta.
  set (best := fold_left (pick len walk_cand) items []).
  destruct (fold_pick_first len walk_cand items [])
    as [Eb|(l1 & [k vx] & l2 & r & El & Hc & Eb & Hlt & _)]; fold best in Eb.
  - (* no child proposes anything *)
    rewrite Eb. change (len (@nil str) >? 0) with false. cbv iota.
    assert (Hflat : forall c child path,
               dict_get items [c] = Some (PDict child) ->
               ~ branching child path).
    { intros c child path G Hbr.
      destruct (Hrec c child G) as [Hin [[_ Hf]|(p & Hw & _)]];
        [exact (Hf path Hbr)|].
      pose proof (fold_pick_upper len walk_cand items [] _
                    ([c] :: spell p) Hin) as Hup.
      fold best in Hup. rewrite Eb in Hup.
      unfold walk_cand in Hup. cbn [fst snd] in Hup. rewrite Hw in Hup.
      assert (Hp : (len (spell p) >? 0) = true).
      { apply len_pos_iff. unfold spell. destruct p; discriminate. }
      rewrite Hp in Hup. specialize (Hup eq_refl).
      unfold len in Hup. cbn [List.length] in Hup. lia. }
    destruct (len items >=? 2) eqn:G2.
    + right. exists []. split; [reflexivity|].
      rewrite Z.geb_le in G2. unfold len in G2. split.
      * apply branching_root. lia.
      * intros [|c path] Hbr; [simpl; lia|].
        apply branching_cons in Hbr as (child & G & Hbr).
        exfalso. eapply Hflat; eassumption.
    + left. split; [reflexivity|].
      intros [|c path] Hbr.
      * apply branching_root in Hbr.
        rewrite Z.geb_leb in G2. apply Z.leb_gt in G2.
        unfold len in G2. lia.
      * apply branching_cons in Hbr as (child & G & Hbr).
        eapply Hflat; eassumption.
  - (* the best proposal comes from the entry [(k, vx)] *)
    assert (Hin : In (k, vx) items).
    { rewrite El. apply in_or_app; right; left; reflexivity. }
    unfold walk_cand in Hc. cbn [fst snd] in Hc.
    destruct vx as [z|child]; [discriminate|].
    destruct (len (walk (PDict child)) >? 0) eqn:Hpos; [|discriminate].
    assert (Er : k :: walk (PDict child) = r) by congruence.
    clear Hc. rewrite <- Er in Eb, Hlt. clear Er r.
    destruct (Hent _ _ Hin) as [[_ Hv]|(c & ch & -> & _ & Ech & _ & _)];
      [discriminate|]. injection Ech as <-.
    pose proof (dict_in_get _ _ _ Hnd Hin) as G.
    destruct (Hrec c child G) as [_ [[Hw _]|(p & Hw & Hbr & Hmax)]].
    { rewrite Hw in Hpos. discriminate. }
    assert (Hbest : (len best >? 0) = true).
    { apply len_pos_iff. rewrite Eb. discriminate. }
    rewrite Hbest, Eb, Hw.
    right. exists (c :: p). split; [reflexivity|]. split.
    + apply branching_cons. exists child. auto.
    + intros [|c' p'] Hbr'; [simpl; lia|].
      apply branching_cons in Hbr' as (child' & G' & Hbr').
      destruct (Hrec c' child' G') as [Hin' [[_ Hf]|(p2 & Hw2 & _ & Hmax2)]];
        [exfalso; exact (Hf _ Hbr')|].
      pose proof (fold_pick_upper len walk_cand items [] _
                    ([c'] :: spell p2) Hin') as Hup.
      fold best in Hup. rewrite Eb, Hw in Hup.
      unfold walk_cand in Hup. cbn [fst snd] in Hup. rewrite Hw2 in Hup.
      assert (Hp2 : (len (spell p2) >? 0) = true).
      { apply len_pos_iff. unfold spell. destruct p2; discriminate. }
      rewrite Hp2 in Hup. specialize (Hup eq_refl).
      unfold len in Hup. cbn [List.length] in Hup.
      rewrite !spell_length in Hup.
      specialize (Hmax2 _ Hbr'). simpl. lia.
Qed.

Lemma common_suffix_length (u v : str) :
  List.length (common_suffix u v) = List.length (lcp (rev u) (rev v)).
Proof. rewrite common_suffix_lcp. apply length_rev. Qed.

(** The trie search returns the empty list when the list has no two different
    words, and otherwise spells backwards a longest common suffix of two
    different words. *)
Lemma trie_search_spec (words : list str) :
  exists trie,
    build_trie words = Some trie /\
    ((walk (PDict trie) = [] /\ ~ distinct_pair words) \/
     (exists u v,
         In u words /\ In v words /\ u <> v /\
         walk (PDict trie) = spell (rev (common_suffix u v)) /\
         forall u' v', In u' words -> In v' words -> u' <> v' ->
                       (List.length (common_suffix u' v')
                        <= List.length (common_suffix u v))%nat)).
Proof.
  destruct (build_trie_ok words) as (trie & Eb & Hinv & Hw).
  exists trie. split; [exact Eb|].
  assert (Hbr : forall u v, In u words -> In v words -> u <> v ->
                            branching trie (lcp (rev u) (rev v))).
  { intros u v Hu Hv Hne. apply words_branching.
    - apply Hw. exists u; auto.
    - apply Hw. exists v; auto.
    - intros E. apply Hne. rewrite <- (rev_involutive u), E.
      apply rev_involutive. }
  destruct (walk_spec _ _ trie eq_refl Hinv)
    as [[Ew Hflat]|(p & Ew & Hdeep & Hmax)].
  - left. split; [exact Ew|].
    intros (u & v & Hu & Hv & Hne). exact (Hflat _ (Hbr u v Hu Hv Hne)).
  - right.
    destruct (branching_words _ _ _ Hinv Hdeep) as (a & b & Ha & Hb & Hne & El).
    apply Hw in Ha as (u & Hu & ->). apply Hw in Hb as (v & Hv & ->).
    exists u, v. split; [exact Hu|]. split; [exact Hv|].
    split; [congruence|]. split.
    + rewrite common_suffix_lcp, rev_involutive, El. exact Ew.
    + intros u' v' Hu' Hv' Hne'.
      rewrite !common_suffix_length, El. apply Hmax. auto.
Qed.

Lemma no_distinct_pair_brute_force (words : list str) :
  ~ distinct_pair words -> largest_common_suffix words = ([], None).
Proof.
  intros Hno.
  destruct (brute_force_attained words)
    as [E|(u & v & Hu & Hv & Hne & _)]; [exact E|].
  exfalso. apply Hno. exists u, v; auto.
Qed.

(** The length of the trie result against the brute-force suffix. *)
Lemma trie_length (words : list str) :
  exists r,
    largest_common_suffix3 words = Some r /\
    (distinct_pair words ->
     List.length r = S (List.length (fst (largest_common_suffix words)))) /\
    (~ distinct_pair words ->
     r = [] /\ largest_common_suffix words = ([], None)).
Proof.
  unfold largest_common_suffix3.
  destruct (trie_search_spec words)
    as (trie & -> & [[Ew Hno]|(u & v & Hu & Hv & Hne & Ew & Hmax)]).
  - exists (walk (PDict trie)). split; [reflexivity|]. split.
    + intros H; contradiction.
    + intros _. split; [exact Ew|].
      apply no_distinct_pair_brute_force; exact Hno.
  - exists (walk (PDict trie)). split; [reflexivity|]. split.
    + intros _. rewrite Ew, spell_length, length_rev. f_equal.
      apply Nat.le_antisymm.
      * apply brute_force_upper; assumption.
      * destruct (brute_force_attained words)
          as [->|(u' & v' & Hu' & Hv' & Hne' & _ & ->)]; [simpl; lia|].
        apply Hmax; assumption.
    + intros Hno. exfalso. apply Hno. exists u, v; auto.
Qed.

Lemma trie_inv_mono (ok ok' : ascii -> Prop) (v : pyval) :
  (forall c, ok c -> ok' c) ->
  forall trie, v = PDict trie -> trie_inv ok trie -> trie_inv ok' trie.
Proof.
  intros Hsub.
  induction v as [z|items IH] using pyval_nested_ind;
    intros trie E [Hnd Hent]; [discriminate|].
  injection E as <-. rewrite Forall_forall in IH.
  constructor; [exact Hnd|].
  intros k v Hin.
  destruct (Hent k v Hin) as [H|(c & child & -> & Hok & -> & Hne & Hci)];
    [left; exact H|right].
  exists c, child. split; [reflexivity|]. split; [auto|].
  split; [reflexivity|]. split; [exact Hne|].
  exact (IH _ Hin child eq_refl Hci).
Qed.

Lemma build_trie_snoc (words : list str) (w : str) :
  build_trie (words ++ [w]) = build_step (build_trie words) w.
Proof. rewrite !build_trie_fold, fold_left_app. reflexivity. Qed.

(** Without two different words, and without empty words, the bucketed search
    finds no pair. *)
Lemma no_distinct_pair_bucketed (words : list str) :
  ~ distinct_pair words -> (forall w, In w words -> w <> []) ->
  largest_common_suffix2 words = Some ([], None).
Proof.
  intros Hno Hne.
  destruct (bucketed_length words Hne) as (r & E & Hlen).
  rewrite (no_distinct_pair_brute_force words Hno) in Hlen.
  rewrite E. f_equal. revert E.
  rewrite largest_common_suffix2_fold.
  destruct (last_char_map words) as [m|]; [|discriminate].
  intros E; injection E as <-.
  destruct (fold_pick_first score bucket_cand m ([], None))
    as [E|(l1 & x & l2 & r' & _ & _ & E & Hlt & _)]; [exact E|].
  exfalso. rewrite E in Hlen. unfold score, len in Hlt.
  cbn [fst List.length] in *. lia.
Qed.

(** * The claims *)

(** [C7] [common_suffix] is symmetric: [common_suffix a b] and
    [common_suffix b a] are the same string. *)
Theorem common_suffix_symmetric (a b : str) :
  common_suffix a b = common_suffix b a.
Proof. apply common_suffix_sym. Qed.

(** [C6] Appending one character [c] to two words lengthens their common
    suffix by at least one; the two words do end in their common suffix. *)
Theorem common_suffix_monotone (a b : str) (c : ascii) :
  (exists a' b', a = a' ++ common_suffix a b /\ b = b' ++ common_suffix a b) /\
  (List.length (common_suffix a b) + 1
   <= List.length (common_suffix (a ++ [c]) (b ++ [c])))%nat.
Proof.
  split.
  - rewrite common_suffix_lcp.
    destruct (lcp_split (rev a) (rev b)) as (a' & b' & Ea & Eb & _).
    exists (rev a'), (rev b'). split.
    + rewrite <- rev_app_distr, <- Ea. symmetry; apply rev_involutive.
    + rewrite <- rev_app_distr, <- Eb. symmetry; apply rev_involutive.
  - rewrite !common_suffix_length, !rev_app_distr. cbn [rev app lcp].
    rewrite Ascii.eqb_refl. cbn [List.length]. lia.
Qed.

(** [C4] The brute-force search bounds the common suffix of every pair of
    positions [i < j] holding different words, hence of every two different
    words of the list; its result is the start value (empty suffix, no pair)
    or the suffix and the words of the first pair of positions, in the order
    of the two loops, that reaches the largest length. *)
Theorem brute_force_search_spec (words : list str) :
  let res := largest_common_suffix words in
  let w := fun i => nth i words [] in
  (forall i j, (i < j < List.length words)%nat -> w i <> w j ->
               (List.length (common_suffix (w i) (w j))
                <= List.length (fst res))%nat) /\
  (forall u v, In u words -> In v words -> u <> v ->
               (List.length (common_suffix u v)
                <= List.length (fst res))%nat) /\
  (res = fold_left (pick score (pair_cand words))
                   (pairs (List.length words)) ([], None)) /\
  (res = ([], None) \/
   exists i j,
     (i < j < List.length words)%nat /\ w i <> w j /\
     res = (common_suffix (w i) (w j), Some (w i, w j)) /\
     forall i' j',
       (i' < j' < List.length words)%nat -> lex_lt (i', j') (i, j) ->
       w i' <> w j' ->
       (List.length (common_suffix (w i') (w j'))
        < List.length (common_suffix (w i) (w j)))%nat).
Proof.
  cbv zeta. split; [|split; [|split]].
  - intros i j. apply brute_force_upper_pos.
  - intros u v. apply brute_force_upper.
  - apply largest_common_suffix_pairs.
  - destruct (brute_force_first words)
      as [E|(i & j & Hij & Hne & _ & E & Hfirst)]; [left; exact E|right].
    exists i, j. auto.
Qed.

(** [C8] On [chat, rat, chien] the brute-force search returns the suffix
    [at] with the pair [(chat, rat)], and the trie search spells the same
    suffix backwards: [t], [a], then the marker. *)
Theorem scenario_chat_rat_chien :
  let words := [lit "chat"; lit "rat"; lit "chien"] in
  largest_common_suffix words = (lit "at", Some (lit "chat", lit "rat")) /\
  largest_common_suffix3 words = Some (spell (rev (lit "at"))) /\
  List.length (lit "at") = 2%nat.
Proof. repeat split. Qed.

(** [C9] The trie search always returns; its result is the empty list, or
    the characters of a longest common suffix of two different words of the
    list, last character first, each as a one-character string, followed by
    the marker ['END'], so that its length is the length of that suffix plus
    one. *)
Theorem trie_result_shape (words : list str) :
  exists r,
    largest_common_suffix3 words = Some r /\
    (r = [] \/
     exists u v,
       In u words /\ In v words /\ u <> v /\
       r = map (fun c => [c]) (rev (common_suffix u v)) ++ [END] /\
       last r [] = END /\
       List.length r = S (List.length (common_suffix u v)) /\
       forall u' v', In u' words -> In v' words -> u' <> v' ->
                     (List.length (common_suffix u' v')
                      <= List.length (common_suffix u v))%nat).
Proof.
  unfold largest_common_suffix3.
  destruct (trie_search_spec words)
    as (trie & -> & [[Ew _]|(u & v & Hu & Hv & Hne & Ew & Hmax)]);
    exists (walk (PDict trie)); (split; [reflexivity|]).
  - left; exact Ew.
  - right. exists u, v. rewrite Ew.
    split; [exact Hu|]. split; [exact Hv|]. split; [exact Hne|].
    split; [reflexivity|]. split; [apply last_last|].
    split; [|exact Hmax]. rewrite spell_length, length_rev. reflexivity.
Qed.

(** [C1] as stated fails: on [a, b] the brute-force and the bucketed search
    return the empty suffix, of length 0, and the trie search returns the
    marker alone, of length 1. *)
Lemma agreement_counterexample : ~ agreement [lit "a"; lit "b"].
Proof.
  intros (r2 & r3 & E2 & E3 & H12 & H23).
  vm_compute in E2, E3. injection E2 as <-. injection E3 as <-.
  vm_compute in H23. discriminate.
Qed.

(** [C1], amended.  The trie result counts the marker: it is empty when the
    list has no two different words, and otherwise one longer than the
    brute-force suffix.  On a list without empty word the bucketed search
    returns a suffix as long as the brute-force one. *)
Theorem agreement_up_to_marker (words : list str) :
  (exists r3,
      largest_common_suffix3 words = Some r3 /\
      (distinct_pair words ->
       List.length r3 = S (List.length (fst (largest_common_suffix words)))) /\
      (~ distinct_pair words ->
       r3 = [] /\ largest_common_suffix words = ([], None))) /\
  ((forall w, In w words -> w <> []) ->
   exists r2,
     largest_common_suffix2 words = Some r2 /\
     List.length (fst r2)
     = List.length (fst (largest_common_suffix words))).
Proof.
  split; [apply trie_length|apply bucketed_length].
Qed.

(** [C2] The bucketed search raises on every list that holds the empty
    string, where the brute-force search and the trie search return. *)
Theorem bucketed_fails_on_empty_word (words : list str) :
  In [] words ->
  largest_common_suffix2 words = None /\
  (exists r, largest_common_suffix words = r) /\
  (exists r3, largest_common_suffix3 words = Some r3).
Proof.
  intros Hin. split; [|split].
  - unfold largest_common_suffix2.
    rewrite (last_char_map_empty_word words Hin). reflexivity.
  - eexists; reflexivity.
  - destruct (trie_length words) as (r3 & E & _). exists r3; exact E.
Qed.

(** [C3] On the list holding only the empty string, the brute-force search
    finds no pair and the trie search returns the empty list, but the
    bucketed search raises. *)
Theorem single_empty_word :
  largest_common_suffix [lit ""] = no_pair /\
  largest_common_suffix3 [lit ""] = Some [] /\
  largest_common_suffix2 [lit ""] = None.
Proof. repeat split. Qed.

(** Apart from the empty string, a list without two different words gives
    "no pair" in the three searches. *)
Lemma single_value_no_pair (words : list str) :
  (forall u v, In u words -> In v words -> u = v) ->
  largest_common_suffix words = no_pair /\
  largest_common_suffix3 words = Some [] /\
  ((forall w, In w words -> w <> []) ->
   largest_common_suffix2 words = Some no_pair).
Proof.
  intros Hsame.
  assert (Hno : ~ distinct_pair words).
  { intros (u & v & Hu & Hv & Hne). apply Hne, Hsame; assumption. }
  split; [apply no_distinct_pair_brute_force; exact Hno|]. split.
  - destruct (trie_length words) as (r & -> & _ & H).
    destruct (H Hno) as [-> _]. reflexivity.
  - apply no_distinct_pair_bucketed; exact Hno.
Qed.

(** [C5] After [build_trie], for two words [u] and [v] of the list with
    common suffix [s], the path of the reversed [s] leads from the root to a
    node; the paths of the two reversed words go through that node and part
    there; and every common prefix of the two reversed words is a prefix of
    the reversed [s]. *)
Theorem trie_common_suffix_path (words : list str) (u v : str) :
  In u words -> In v words ->
  exists trie,
    build_trie words = Some trie /\
    exists node a b,
      node_at trie (rev (common_suffix u v)) = Some node /\
      rev u = rev (common_suffix u v) ++ a /\
      rev v = rev (common_suffix u v) ++ b /\
      has_word node a = true /\ has_word node b = true /\
      diverge a b /\
      forall q x y, rev u = q ++ x -> rev v = q ++ y ->
                    exists r, rev (common_suffix u v) = q ++ r.
Proof.
  intros Hu Hv.
  destruct (build_trie_ok words) as (trie & Eb & Hinv & Hw).
  exists trie. split; [exact Eb|].
  rewrite common_suffix_lcp, rev_involutive.
  destruct (lcp_split (rev u) (rev v)) as (a & b & Ea & Eb' & Hd).
  assert (Hwu : has_word trie (rev u) = true) by (apply Hw; exists u; auto).
  assert (Hwv : has_word trie (rev v) = true) by (apply Hw; exists v; auto).
  rewrite Ea in Hwu. rewrite Eb' in Hwv.
  apply has_word_node in Hwu as (nu & Hnu & Hau).
  apply has_word_node in Hwv as (nv & Hnv & Hbv).
  assert (nv = nu) by congruence; subst nv.
  exists nu, a, b. repeat split; try assumption.
  intros q x y Hx Hy. rewrite Hx, Hy, lcp_app. eauto.
Qed.

(** [C10] [build_trie] returns a trie in which every node has unique keys,
    each the marker ['END'] holding [0] or one character of a word of the
    list holding a non-empty node of the same shape; a value is not a
    dictionary exactly when its key is the marker.  Inserting one word more
    keeps the shape, keeps every node at its path and keeps its keys in
    their order. *)
Theorem build_trie_invariant (words : list str) (w : str) :
  exists trie trie',
    build_trie words = Some trie /\
    trie_inv (char_of words) trie /\
    (forall path node k v,
        node_at trie path = Some node -> In (k, v) node ->
        entry_shape words k v /\
        (k = END <-> forall child, v <> PDict child)) /\
    insert_chars (rev w) trie = Some trie' /\
    build_trie (words ++ [w]) = Some trie' /\
    trie_inv (char_of (words ++ [w])) trie' /\
    extends trie trie'.
Proof.
  destruct (build_trie_ok words) as (trie & Eb & Hinv & _).
  assert (Hinv' : trie_inv (char_of (words ++ [w])) trie).
  { apply (trie_inv_mono (char_of words) _ (PDict trie)); auto.
    intros c (w' & Hw' & Hc). exists w'. split; [|exact Hc].
    apply in_or_app; left; exact Hw'. }
  destruct (insert_chars_ok _ (rev w) trie Hinv') as (trie' & Ei & Hi & _).
  { intros c Hc. exists w. split; [apply in_or_app; right; left; reflexivity|].
    apply in_rev; exact Hc. }
  exists trie, trie'. split; [exact Eb|]. split; [exact Hinv|]. split.
  { intros path node k v Hn Hin.
    pose proof (node_at_inv _ _ _ _ Hinv Hn) as [_ Hent].
    destruct (Hent k v Hin) as [[-> ->]|(c & child & -> & Hok & -> & _)].
    - split; [left; auto|]. split; [discriminate|reflexivity].
    - split; [right; exists c, child; auto|]. split; [discriminate|].
      intros H. exfalso. exact (H child eq_refl). }
  split; [exact Ei|]. split.
  { rewrite build_trie_snoc, Eb. exact Ei. }
  split; [exact Hi|]. eapply insert_chars_extends; exact Ei.
Qed.

(** ** The theorems at concrete inputs *)

(** The bucketed search on [chat, rat, chien], a list without empty word. *)
Lemma agreement_up_to_marker_witness :
  exists r2,
    largest_common_suffix2 [lit "chat"; lit "rat"; lit "chien"] = Some r2 /\
    List.length (fst r2)
    = List.length
        (fst (largest_common_suffix [lit "chat"; lit "rat"; lit "chien"])).
Proof.
  apply (proj2 (agreement_up_to_marker [lit "chat"; lit "rat"; lit "chien"])).
  intros w [<-|[<-|[<-|[]]]]; discriminate.
Defined.

(** The bucketed search on [a] and the empty string. *)
Lemma bucketed_fails_on_empty_word_witness :
  In [] [lit "a"; lit ""] /\
  largest_common_suffix2 [lit "a"; lit ""] = None /\
  (exists r, largest_common_suffix [lit "a"; lit ""] = r) /\
  (exists r3, largest_common_suffix3 [lit "a"; lit ""] = Some r3).
Proof.
  split; [simpl; auto|].
  apply (bucketed_fails_on_empty_word [lit "a"; lit ""]). simpl; auto.
Defined.

(** The path of [at] in the trie of [chat, rat, chien]. *)
Lemma trie_common_suffix_path_witness :
  exists trie,
    build_trie [lit "chat"; lit "rat"; lit "chien"] = Some trie /\
    exists node a b,
      node_at trie (rev (common_suffix (lit "chat") (lit "rat"))) = Some node /\
      rev (lit "chat") = rev (common_suffix (lit "chat") (lit "rat")) ++ a /\
      rev (lit "rat") = rev (common_suffix (lit "chat") (lit "rat")) ++ b /\
      has_word node a = true /\ has_word node b = true /\
      diverge a b /\
      forall q x y, rev (lit "chat") = q ++ x -> rev (lit "rat") = q ++ y ->
                    exists r,
                      rev (common_suffix (lit "chat") (lit "rat")) = q ++ r.
Proof.
  apply (trie_common_suffix_path [lit "chat"; lit "rat"; lit "chien"]
           (lit "chat") (lit "rat")); simpl; auto.
Defined.

(** * Further properties of the code *)

(** ** The suffix comparator *)

(** [common_suffix a b] is a suffix of both words, and every string that is
    a suffix of both is a suffix of it. *)
Theorem common_suffix_greatest (a b : str) :
  (exists a' b', a = a' ++ common_suffix a b /\ b = b' ++ common_suffix a b) /\
  (forall s a1 b1, a = a1 ++ s -> b = b1 ++ s ->
                   exists t, common_suffix a b = t ++ s).
Proof.
  rewrite common_suffix_lcp. split.
  - destruct (lcp_split (rev a) (rev b)) as (a' & b' & Ea & Eb & _).
    exists (rev a'), (rev b'). split.
    + rewrite <- rev_app_distr, <- Ea. symmetry; apply rev_involutive.
    + rewrite <- rev_app_distr, <- Eb. symmetry; apply rev_involutive.
  - intros s a1 b1 -> ->. rewrite !rev_app_distr, lcp_app, rev_app_distr.
    rewrite rev_involutive. eauto.
Qed.

(** ** The bucket map *)

Lemma in_nil_dec (words : list str) : {In [] words} + {~ In [] words}.
Proof. apply in_dec. apply list_eq_dec. apply ascii_dec. Qed.

(** [last_char_map] raises exactly on the lists that hold the empty
    string. *)
Theorem last_char_map_none_iff (words : list str) :
  last_char_map words = None <-> In [] words.
Proof.
  split; [|apply last_char_map_empty_word].
  intros E. destruct (in_nil_dec words) as [H|H]; [exact H|exfalso].
  destruct (last_char_map_ok words) as (m & Em & _); [|congruence].
  intros w Hw ->. exact (H Hw).
Qed.

Lemma bucket_snoc (c : ascii) (seen : list str) (w : str) :
  bucket c (seen ++ [w])
  = if ends_with c w
    then Some (match bucket c seen with
               | None => [w]
               | Some ws => ws ++ [w]
               end)
    else bucket c seen.
Proof.
  unfold bucket. rewrite filter_app. cbn [filter].
  destruct (ends_with c w); [|rewrite app_nil_r; reflexivity].
  destruct (filter (ends_with c) seen); reflexivity.
Qed.

Lemma bucket_step_inv (seen : list str) (word_map : list (str * list str))
      (word : str) :
  bucket_inv seen word_map ->
  forall word_map', bucket_step (Some word_map) word = Some word_map' ->
                    bucket_inv (seen ++ [word]) word_map'.
Proof.
  intros (Hnd & Hkeys & Hget) m' E. unfold bucket_step in E.
  destruct (py_index word (-1)) as [c0|] eqn:Hc0; [|discriminate].
  cbv zeta in E.
  assert (Em : m' = dict_set word_map [c0]
                      (match dict_get word_map [c0] with
                       | None => [word] | Some ws => ws ++ [word] end)).
  { destruct (dict_get word_map [c0]); congruence. }
  clear E. subst m'. split; [apply dict_set_nodup; exact Hnd|]. split.
  - intros k ws Hin. apply dict_set_in in Hin as [[-> _]|Hin]; eauto.
  - intros c. rewrite dict_get_set, char_key_eqb, bucket_snoc.
    unfold ends_with. rewrite Hc0, (Ascii.eqb_sym c0 c).
    destruct (Ascii.eqb c c0) eqn:E; [|apply Hget].
    apply Ascii.eqb_eq in E; subst c0. rewrite Hget. reflexivity.
Qed.

Lemma bucket_fold_inv (words seen : list str)
      (word_map : list (str * list str)) :
  bucket_inv seen word_map ->
  forall word_map',
    fold_left bucket_step words (Some word_map) = Some word_map' ->
    bucket_inv (seen ++ words) word_map'.
Proof.
  revert seen word_map; induction words as [|w words IH];
    intros seen word_map Hinv m' E; cbn [fold_left] in E.
  - injection E as <-. rewrite app_nil_r. exact Hinv.
  - destruct (bucket_step (Some word_map) w) as [m1|] eqn:E1.
    + replace (seen ++ w :: words) with ((seen ++ [w]) ++ words)
        by (rewrite <- app_assoc; reflexivity).
      eapply IH; [|exact E]. eapply bucket_step_inv; eassumption.
    + rewrite bucket_fold_none in E. discriminate.
Qed.

(** When [last_char_map] returns, its keys are unique one-character strings
    and the bucket of each character holds the words ending in it, in the
    order of the list; a character that ends no word has no bucket. *)
Theorem last_char_map_buckets (words : list str)
        (word_map : list (str * list str)) :
  last_char_map words = Some word_map ->
  NoDup (map fst word_map) /\
  (forall k ws, In (k, ws) word_map -> exists c, k = [c]) /\
  (forall c, dict_get word_map [c]
             = match filter (ends_with c) words with
               | [] => None
               | ws => Some ws
               end).
Proof.
  intros E. apply (bucket_fold_inv words [] []); [|exact E].
  split; [constructor|]. split; [intros k ws []|reflexivity].
Qed.

(** ** The brute-force and the bucketed search *)

(** The brute-force search returns no pair exactly when no two different
    words of the list share a non-empty suffix, and the suffix is then empty;
    a pair it returns holds two different words of the list, and the suffix
    is their non-empty common suffix. *)
Theorem brute_force_pair (words : list str) :
  (snd (largest_common_suffix words) = None <->
   forall u v, In u words -> In v words -> u <> v -> common_suffix u v = []) /\
  (snd (largest_common_suffix words) = None ->
   fst (largest_common_suffix words) = []) /\
  (forall u v,
      snd (largest_common_suffix words) = Some (u, v) ->
      In u words /\ In v words /\ u <> v /\
      fst (largest_common_suffix words) = common_suffix u v /\
      common_suffix u v <> []).
Proof.
  destruct (brute_force_attained words)
    as [E|(u & v & Hu & Hv & Hne & Hnil & E)].
  - split; [|split].
    + split; [intros _ u v Hu Hv Hne|rewrite E; reflexivity].
      pose proof (brute_force_upper words u v Hu Hv Hne) as H.
      rewrite E in H. destruct (common_suffix u v); [reflexivity|].
      simpl in H; lia.
    + rewrite E; reflexivity.
    + rewrite E. discriminate.
  - split; [|split].
    + rewrite E. split; [discriminate|].
      intros H. exfalso. apply Hnil. apply H; assumption.
    + rewrite E. discriminate.
    + rewrite E. cbn [fst snd]. intros u' v' H. injection H as <- <-. auto.
Qed.

(** When the bucketed search returns, its suffix bounds the common suffix of
    every two different words of the list, and its result is the empty
    suffix with no pair, or the non-empty common suffix of two different
    words of the list together with these two words. *)
Theorem bucketed_result (words : list str) (s : str) (p : option (str * str)) :
  largest_common_suffix2 words = Some (s, p) ->
  (forall u v, In u words -> In v words -> u <> v ->
               (List.length (common_suffix u v) <= List.length s)%nat) /\
  ((s = [] /\ p = None) \/
   exists u v, p = Some (u, v) /\ In u words /\ In v words /\ u <> v /\
               s = common_suffix u v /\ s <> []).
Proof.
  intros E.
  assert (Hne : forall w, In w words -> w <> []).
  { intros w Hw ->. apply last_char_map_none_iff in Hw.
    unfold largest_common_suffix2 in E. rewrite Hw in E. discriminate. }
  destruct (bucketed_length words Hne) as (r & Er & Hlen).
  assert (r = (s, p)) by congruence; subst r. cbn [fst] in Hlen.
  split.
  { intros u v Hu Hv Huv. rewrite Hlen. apply brute_force_upper; assumption. }
  rewrite largest_common_suffix2_fold in E.
  destruct (last_char_map_ok words Hne) as (m & Em & Hsub & _).
  rewrite Em in E. injection E as E.
  destruct (fold_pick_first score bucket_cand m ([], None))
    as [E0|(l1 & [k ws] & l2 & r & El & Hc & Er' & _ & _)].
  { left. rewrite E0 in E. injection E as <- <-. auto. }
  rewrite Er' in E. subst r. injection Hc as Hc. cbn [snd] in Hc.
  assert (Hin : In (k, ws) m).
  { rewrite El. apply in_or_app; right; left; reflexivity. }
  destruct (brute_force_attained ws)
    as [E0|(u & v & Hu & Hv & Huv & Hnil & E1)].
  - left. rewrite E0 in Hc. injection Hc as <- <-. auto.
  - right. rewrite E1 in Hc. injection Hc as <- <-.
    exists u, v. repeat split; eauto.
Qed.

Lemma distinct_pair_perm (ws ws' : list str) :
  Permutation ws ws' -> distinct_pair ws -> distinct_pair ws'.
Proof.
  intros Hp (u & v & Hu & Hv & Hne).
  exists u, v. repeat split; eauto using Permutation_in.
Qed.

Lemma brute_force_length_le (ws ws' : list str) :
  (forall w, In w ws -> In w ws') ->
  (List.length (fst (largest_common_suffix ws))
   <= List.length (fst (largest_common_suffix ws')))%nat.
Proof.
  intros Hsub.
  destruct (brute_force_attained ws)
    as [->|(u & v & Hu & Hv & Hne & _ & ->)]; [simpl; lia|].
  apply brute_force_upper; auto.
Qed.

(** The lengths found do not depend on the order of the words: on two lists
    that are permutations of each other the brute-force suffixes have the
    same length, and so have the results of the trie search. *)
Theorem search_length_permutation (ws ws' : list str) :
  Permutation ws ws' ->
  List.length (fst (largest_common_suffix ws))
  = List.length (fst (largest_common_suffix ws')) /\
  exists r r',
    largest_common_suffix3 ws = Some r /\
    largest_common_suffix3 ws' = Some r' /\
    List.length r = List.length r'.
Proof.
  intros Hp.
  assert (Hbf : List.length (fst (largest_common_suffix ws))
                = List.length (fst (largest_common_suffix ws'))).
  { apply Nat.le_antisymm; apply brute_force_length_le; intros w;
      apply Permutation_in; [exact Hp|symmetry; exact Hp]. }
  split; [exact Hbf|].
  destruct (trie_length ws) as (r & Er & Hd & Hn).
  destruct (trie_length ws') as (r' & Er' & Hd' & Hn').
  exists r, r'. split; [exact Er|]. split; [exact Er'|].
  destruct (trie_search_spec ws)
    as (t & _ & [[_ Hno]|(u & v & Hu & Hv & Hne & _)]).
  - destruct (Hn Hno) as [-> _].
    assert (Hno' : ~ distinct_pair ws').
    { intros H. apply Hno. eapply distinct_pair_perm; [|exact H].
      symmetry; exact Hp. }
    destruct (Hn' Hno') as [-> _]. reflexivity.
  - assert (Hdp : distinct_pair ws) by (exists u, v; auto).
    rewrite (Hd Hdp), (Hd' (distinct_pair_perm _ _ Hp Hdp)), Hbf.
    reflexivity.
Qed.

(** ** The trie *)

(** The trie built from a list holds the reversed words of the list and
    nothing else: a path ends on a node marked ['END'] exactly when it spells
    a word of the list backwards. *)
Theorem trie_holds_reversed_words (words : list str) :
  exists trie,
    build_trie words = Some trie /\
    (forall w, has_word trie (rev w) = true <-> In w words) /\
    (forall path, has_word trie path = true -> In (rev path) words).
Proof.
  destruct (build_trie_ok words) as (trie & E & _ & Hw).
  exists trie. split; [exact E|]. split.
  - intros w. rewrite Hw. split.
    + intros (w' & Hin & Erev).
      apply (f_equal (@rev ascii)) in Erev.
      rewrite !rev_involutive in Erev. subst; exact Hin.
    + intros Hin. exists w; auto.
  - intros path H. apply Hw in H as (w & Hin & ->).
    rewrite rev_involutive. exact Hin.
Qed.

Lemma node_at_child_not_nil (ok : ascii -> Prop) (path : list ascii) :
  forall trie c node,
    trie_inv ok trie -> node_at trie (c :: path) = Some node -> node <> [].
Proof.
  induction path as [|c' path IH]; intros trie c node Hinv Hn;
    cbn [node_at] in Hn;
    destruct (dict_get trie [c]) as [v|] eqn:G; try discriminate;
    destruct (trie_inv_child _ _ _ _ Hinv G) as (child & -> & _ & Hne & Hci).
  - injection Hn as <-. exact Hne.
  - eapply IH; eassumption.
Qed.

(** The trie has no node that no word needs: a non-empty path leads to a node
    exactly when it is the beginning of a reversed word of the list. *)
Theorem trie_paths_are_prefixes (words : list str) :
  exists trie,
    build_trie words = Some trie /\
    forall c path,
      (exists node, node_at trie (c :: path) = Some node) <->
      (exists w rest, In w words /\ rev w = (c :: path) ++ rest).
Proof.
  destruct (build_trie_ok words) as (trie & E & Hinv & Hw).
  exists trie. split; [exact E|]. intros c path. split.
  - intros (node & Hn).
    pose proof (node_at_child_not_nil _ _ _ _ _ Hinv Hn) as Hne.
    pose proof (node_at_inv _ _ _ _ Hinv Hn) as Hni.
    destruct (trie_inv_live _ (PDict node) node eq_refl Hni Hne) as (q & Hq).
    rewrite <- (has_word_app _ q _ _ Hn) in Hq.
    apply Hw in Hq as (w & Hin & Eq). exists w, q. auto.
  - intros (w & rest & Hin & Erev).
    assert (H : has_word trie (rev w) = true) by (apply Hw; exists w; auto).
    rewrite Erev in H. apply has_word_node in H as (node & Hn & _).
    exists node; exact Hn.
Qed.

Lemma dict_set_same {V} (d : list (str * V)) (k : str) (v : V) :
  dict_get d k = Some v -> dict_set d k v = d.
Proof.
  induction d as [|[k0 v0] d IH]; simpl; [discriminate|].
  destruct (str_eqb k k0); [congruence|].
  intros H. rewrite IH by exact H. reflexivity.
Qed.

Lemma insert_chars_present (ok : ascii -> Prop) (cs : list ascii) :
  forall node,
    trie_inv ok node -> has_word node cs = true ->
    insert_chars cs node = Some node.
Proof.
  induction cs as [|c cs IH]; intros node Hinv Hw.
  - cbn [insert_chars has_word] in *. unfold dict_mem in Hw.
    destruct (dict_get node END) as [v|] eqn:G; [|discriminate].
    apply f_equal. apply dict_set_same. rewrite G. apply f_equal.
    destruct Hinv as [_ Hent]. apply dict_get_in in G.
    destruct (Hent _ _ G) as [[_ ->]|(c & child & Ek & _)];
      [reflexivity|discriminate].
  - rewrite insert_chars_cons. cbn [has_word] in Hw.
    destruct (dict_get node [c]) as [[z|child]|] eqn:G; try discriminate.
    destruct (trie_inv_child _ _ _ _ Hinv G) as (ch & Ech & _ & _ & Hci).
    injection Ech as <-. rewrite (IH child Hci Hw). cbn [option_map].
    apply f_equal. apply dict_set_same. exact G.
Qed.

(** Inserting a word a second time changes nothing: the trie of a list
    followed by one of its words is the trie of the list, and the trie
    search returns the same on both. *)
Theorem build_trie_duplicate (words : list str) (w : str) :
  In w words ->
  build_trie (words ++ [w]) = build_trie words /\
  largest_common_suffix3 (words ++ [w]) = largest_common_suffix3 words.
Proof.
  intros Hin.
  assert (E : build_trie (words ++ [w]) = build_trie words).
  { rewrite build_trie_snoc.
    destruct (build_trie_ok words) as (trie & E & Hinv & Hw).
    rewrite E. cbn [build_step].
    apply (insert_chars_present _ _ _ Hinv). apply Hw. exists w; auto. }
  split; [exact E|]. unfold largest_common_suffix3. rewrite E. reflexivity.
Qed.

(** ** Word extraction *)

Example extract_words_poem :
  extract_words (fun s => s) (lit "  golfe d'ombre; e,  candeur ")
  = [lit "golfe"; lit "d"; lit "ombre"; lit "e"; lit "candeur"].
Proof. reflexivity. Qed.

Example extract_words_blank :
  extract_words (fun s => s) (lit " ,; ") = [lit ""].
Proof. reflexivity. Qed.

Lemma split_on_not_nil (sep : ascii) (s : str) : split_on sep s <> [].
Proof.
  destruct s as [|c s]; simpl; [discriminate|].
  destruct (Ascii.eqb c sep); [discriminate|].
  destruct (split_on sep s); discriminate.
Qed.

Lemma split_on_chars (sep : ascii) (s : str) :
  forall w c, In w (split_on sep s) -> In c w -> In c s /\ c <> sep.
Proof.
  induction s as [|x s IH]; intros w c Hw Hc; simpl in Hw.
  - destruct Hw as [<-|[]]. contradiction.
  - destruct (Ascii.eqb x sep) eqn:E.
    + destruct Hw as [<-|Hw]; [contradiction|].
      destruct (IH w c Hw Hc). split; [right|]; assumption.
    + apply Ascii.eqb_neq in E.
      destruct (split_on sep s) as [|w0 ws] eqn:Es.
      * destruct Hw as [<-|[]]. destruct Hc as [<-|[]].
        split; [left; reflexivity|exact E].
      * destruct Hw as [<-|Hw].
        -- destruct Hc as [<-|Hc]; [split; [left; reflexivity|exact E]|].
           destruct (IH w0 c (or_introl eq_refl) Hc).
           split; [right|]; assumption.
        -- destruct (IH w c (or_intror Hw) Hc). split; [right|]; assumption.
Qed.

Lemma squeeze_incl (b : bool) (s : str) (c : ascii) :
  In c (squeeze b s) -> In c s.
Proof.
  revert b; induction s as [|x s IH]; intros b; simpl; [auto|].
  destruct (Ascii.eqb x space) eqn:E.
  - apply Ascii.eqb_eq in E; subst x.
    destruct b; [intros H; right; eapply IH; exact H|].
    intros [H|H]; [left; exact H|right; eapply IH; exact H].
  - intros [H|H]; [left; exact H|right; eapply IH; exact H].
Qed.

Lemma lstrip_suffix (s : str) : exists l, s = l ++ lstrip s.
Proof.
  induction s as [|c s (l & IH)]; simpl; [exists []; reflexivity|].
  destruct (is_space c); [|exists []; reflexivity].
  exists (c :: l). simpl. congruence.
Qed.

Lemma strip_infix (s : str) : exists l r, s = l ++ strip s ++ r.
Proof.
  unfold strip.
  destruct (lstrip_suffix s) as (l & El).
  destruct (lstrip_suffix (rev (lstrip s))) as (l2 & El2).
  exists l, (rev l2). rewrite <- rev_app_distr, <- El2, rev_involutive.
  exact El.
Qed.

Lemma strip_incl (s : str) (c : ascii) : In c (strip s) -> In c s.
Proof.
  destruct (strip_infix s) as (l & r & E). intros H. rewrite E.
  apply in_or_app; right. apply in_or_app; left. exact H.
Qed.

(** No word that [extract_words] returns holds a space, a newline, an
    apostrophe or one of the characters [!?,.;:]. *)
Theorem extract_words_no_separator (lower : str -> str) (corpus : str) :
  Forall (fun w => Forall (fun c => ~ separator c) w)
         (extract_words lower corpus).
Proof.
  apply Forall_forall. intros w Hw. apply Forall_forall. intros c Hc.
  unfold extract_words in Hw.
  destruct (split_on_chars _ _ _ _ Hw Hc) as [Hin Hsp].
  apply strip_incl, squeeze_incl, filter_In in Hin as [Hin Hp].
  apply negb_true_iff in Hp.
  apply in_map_iff in Hin as (x & Ex & _).
  intros [H|[H|[H|H]]]; try congruence.
  - subst c. destruct (is_break x) eqn:B; [discriminate|].
    subst x. discriminate.
  - subst c. destruct (is_break x) eqn:B; [discriminate|].
    subst x. discriminate.
Qed.

Lemma squeeze_nodouble (s : str) :
  forall b, nodouble (squeeze b s) /\
            (b = true -> forall r, squeeze b s <> space :: r).
Proof.
  induction s as [|c s IH]; intros b; cbn [squeeze].
  - split; [intros [|x l] r; discriminate|intros _ r; discriminate].
  - destruct (Ascii.eqb c space) eqn:E.
    + destruct b; [apply IH|].
      destruct (IH true) as [IH1 IH2]. split; [|discriminate].
      intros [|x l] r H; injection H as H.
      * exact (IH2 eq_refl _ H).
      * exact (IH1 _ _ H0).
    + apply Ascii.eqb_neq in E. destruct (IH false) as [IH1 _]. split.
      * intros [|x l] r H; injection H as H; [congruence|].
        exact (IH1 _ _ H0).
      * intros _ r H; injection H as H; congruence.
Qed.

Lemma nodouble_infix (l s r : str) : nodouble (l ++ s ++ r) -> nodouble s.
Proof.
  intros H l' r' E. apply (H (l ++ l') (r' ++ r)).
  rewrite E, <- !app_assoc. reflexivity.
Qed.

Lemma lstrip_head (s : str) (c : ascii) (s' : str) :
  lstrip s = c :: s' -> is_space c = false.
Proof.
  induction s as [|x s IH]; simpl; [discriminate|].
  destruct (is_space x) eqn:E; [exact IH|].
  intros H; injection H as -> _. exact E.
Qed.

(** What [strip] returns neither begins nor ends with white space. *)
Lemma strip_ends (s : str) :
  (forall c s', strip s = c :: s' -> is_space c = false) /\
  (forall s' c, strip s = s' ++ [c] -> is_space c = false).
Proof.
  unfold strip. split.
  - intros c s' E.
    destruct (lstrip_suffix (rev (lstrip s))) as (l2 & El2).
    apply (f_equal (@rev ascii)) in El2.
    rewrite rev_involutive, rev_app_distr, E in El2.
    eapply lstrip_head. exact El2.
  - intros s' c E. apply (f_equal (@rev ascii)) in E.
    rewrite rev_involutive, rev_app_distr in E. simpl in E.
    eapply lstrip_head. exact E.
Qed.

Lemma split_on_tail (s : str) :
  nodouble s -> (forall s', s <> s' ++ [space]) ->
  Forall (fun w => w <> []) (tl (split_on space s)) /\
  (hd [] (split_on space s) = [] -> s = [] \/ exists r, s = space :: r).
Proof.
  induction s as [|c s IH]; intros Hnd Hlast; cbn [split_on].
  - split; [constructor|auto].
  - assert (Hnd' : nodouble s).
    { intros l r E. apply (Hnd (c :: l) r). rewrite E. reflexivity. }
    assert (Hlast' : forall s', s <> s' ++ [space]).
    { intros s' E. apply (Hlast (c :: s')). rewrite E. reflexivity. }
    destruct (IH Hnd' Hlast') as [IHt IHh].
    destruct (Ascii.eqb c space) eqn:E.
    + apply Ascii.eqb_eq in E; subst c. cbn [tl hd]. split; [|eauto].
      destruct (split_on space s) as [|w ws] eqn:Es;
        [constructor|]. cbn [tl hd] in *.
      constructor; [|exact IHt].
      intros ->. destruct (IHh eq_refl) as [->|(r & ->)].
      * apply (Hlast []). reflexivity.
      * apply (Hnd [] r). reflexivity.
    + destruct (split_on space s) as [|w ws] eqn:Es; cbn [tl hd] in *.
      * split; [constructor|discriminate].
      * split; [exact IHt|discriminate].
Qed.

(** [extract_words] returns the list holding only the empty string, or a
    list of non-empty words; it never returns the empty list. *)
Theorem extract_words_words (lower : str -> str) (corpus : str) :
  extract_words lower corpus <> [] /\
  (extract_words lower corpus = [[]] \/
   Forall (fun w => w <> []) (extract_words lower corpus)).
Proof.
  unfold extract_words. cbv zeta.
  set (t := filter _ _). split; [apply split_on_not_nil|].
  destruct (strip (squeeze false t)) as [|c s] eqn:Es;
    [left; reflexivity|right].
  destruct (strip_ends (squeeze false t)) as [Hhead Hlast].
  rewrite Es in Hhead, Hlast.
  destruct (split_on_tail (c :: s)) as [Ht Hh].
  - destruct (strip_infix (squeeze false t)) as (l & r & E).
    rewrite Es in E. apply (nodouble_infix l _ r). rewrite <- E.
    apply squeeze_nodouble.
  - intros s' E. specialize (Hlast _ _ E). discriminate.
  - pose proof (split_on_not_nil space (c :: s)) as Hnn.
    destruct (split_on space (c :: s)) as [|w ws]; [contradiction|].
    cbn [tl hd] in *. constructor; [|exact Ht].
    intros ->. destruct (Hh eq_refl) as [H|(r & H)]; [discriminate|].
    injection H as -> _. specialize (Hhead _ _ eq_refl). discriminate.
Qed.

Lemma split_on_single_nil (sep : ascii) (s : str) :
  split_on sep s = [[]] <-> s = [].
Proof.
  split; [|intros ->; reflexivity].
  destruct s as [|c s]; [reflexivity|]. simpl.
  destruct (Ascii.eqb c sep).
  - intros H. injection H as H. exfalso. exact (split_on_not_nil _ _ H).
  - destruct (split_on sep s); discriminate.
Qed.

Lemma lstrip_nil (s : str) :
  lstrip s = [] <-> Forall (fun c => is_space c = true) s.
Proof.
  induction s as [|c s IH]; simpl; [split; [constructor|reflexivity]|].
  destruct (is_space c) eqn:E.
  - rewrite IH. split; [constructor; assumption|].
    intros H; inversion H; assumption.
  - split; [discriminate|]. intros H; inversion H; congruence.
Qed.

Lemma strip_nil (s : str) :
  strip s = [] <-> Forall (fun c => is_space c = true) s.
Proof.
  rewrite <- lstrip_nil. unfold strip. split.
  - intros H. apply (f_equal (@rev ascii)) in H.
    rewrite rev_involutive in H. simpl in H.
    apply lstrip_nil in H. apply Forall_rev in H.
    rewrite rev_involutive in H.
    destruct (lstrip s) as [|c s'] eqn:E; [reflexivity|].
    apply lstrip_head in E. inversion H; congruence.
  - intros ->. reflexivity.
Qed.

Lemma squeeze_all_space (s : str) :
  forall b, Forall (fun c => is_space c = true) (squeeze b s)
            <-> Forall (fun c => is_space c = true) s.
Proof.
  induction s as [|c s IH]; intros b; cbn [squeeze]; [tauto|].
  destruct (Ascii.eqb c space) eqn:E.
  - apply Ascii.eqb_eq in E; subst c. destruct b.
    + rewrite IH. split; [constructor; [reflexivity|assumption]|].
      intros H; inversion H; assumption.
    + split; intros H; inversion H; subst; constructor; try assumption;
        apply (IH true); assumption.
  - split; intros H; inversion H; subst; constructor; try assumption;
      apply (IH false); assumption.
Qed.

(** [extract_words] returns the list holding only the empty string exactly
    when every character of the lowered text is white space, an apostrophe
    or one of [!?,.;:]. *)
Theorem extract_words_blank_iff (lower : str -> str) (corpus : str) :
  extract_words lower corpus = [[]] <-> Forall blank (lower corpus).
Proof.
  unfold extract_words. cbv zeta.
  rewrite split_on_single_nil, strip_nil, squeeze_all_space.
  induction (lower corpus) as [|c s IH]; cbn [map filter].
  - split; constructor.
  - assert (Hc : (is_punct (if is_break c then space else c) = false /\
                  is_space (if is_break c then space else c) = true)
                 \/ is_punct (if is_break c then space else c) = true
                 <-> blank c).
    { unfold blank. destruct (is_break c) eqn:B.
      - unfold is_break in B. apply orb_true_iff in B as [B|B];
          apply Ascii.eqb_eq in B; subst c; split; intros _;
          (left; split; reflexivity) || (left; reflexivity)
          || (right; left; reflexivity).
      - destruct (is_punct c) eqn:P; [tauto|].
        split.
        + intros [[_ H]|H]; [left; exact H|discriminate].
        + intros [H|[H|H]]; [left; auto| |discriminate].
          subst c. discriminate. }
    destruct (is_punct (if is_break c then space else c)) eqn:P;
      cbn [negb].
    + rewrite IH. split; [constructor; [apply Hc; auto|assumption]|].
      intros H; inversion H; assumption.
    + split; intros H; inversion H; subst; constructor.
      * apply Hc. left. auto.
      * apply IH; assumption.
      * destruct (proj2 Hc H2) as [[_ Hs]|Hp]; [exact Hs|discriminate].
      * apply IH; assumption.
Qed.

(** The bucketed search on extracted words: it raises exactly when
    [extract_words] returned the list holding only the empty string, and
    otherwise returns a suffix as long as that of the brute-force search. *)
Theorem bucketed_on_extracted_words (lower : str -> str) (corpus : str) :
  let words := extract_words lower corpus in
  (largest_common_suffix2 words = None <-> words = [[]]) /\
  (words <> [[]] ->
   exists r, largest_common_suffix2 words = Some r /\
             List.length (fst r)
             = List.length (fst (largest_common_suffix words))).
Proof.
  cbv zeta.
  destruct (extract_words_words lower corpus) as [_ [E|Hne]].
  - rewrite E. split; [split; reflexivity|]. intros H; contradiction.
  - rewrite Forall_forall in Hne.
    destruct (bucketed_length _ Hne) as (r & Er & Hlen).
    assert (Hnot : extract_words lower corpus <> [[]]).
    { intros E. apply (Hne []); [rewrite E; left|]; reflexivity. }
    split.
    + rewrite Er. split; [discriminate|contradiction].
    + intros _. exists r. auto.
Qed.

(** ** The further theorems at concrete inputs *)

(** The buckets of [chat, rat, chien]. *)
Lemma last_char_map_buckets_witness :
  let word_map := [(lit "t", [lit "chat"; lit "rat"]);
                   (lit "n", [lit "chien"])] in
  NoDup (map fst word_map) /\
  (forall k ws, In (k, ws) word_map -> exists c, k = [c]) /\
  (forall c, dict_get word_map [c]
             = match filter (ends_with c)
                            [lit "chat"; lit "rat"; lit "chien"] with
               | [] => None
               | ws => Some ws
               end).
Proof.
  apply (last_char_map_buckets [lit "chat"; lit "rat"; lit "chien"]).
  reflexivity.
Defined.

(** The bucketed search on [chat, rat, chien]. *)
Lemma bucketed_result_witness :
  let words := [lit "chat"; lit "rat"; lit "chien"] in
  (forall u v, In u words -> In v words -> u <> v ->
               (List.length (common_suffix u v)
                <= List.length (lit "at"))%nat) /\
  ((lit "at" = [] /\ Some (lit "chat", lit "rat") = None) \/
   exists u v, Some (lit "chat", lit "rat") = Some (u, v) /\
               In u words /\ In v words /\ u <> v /\
               lit "at" = common_suffix u v /\ lit "at" <> []).
Proof.
  apply (bucketed_result [lit "chat"; lit "rat"; lit "chien"]).
  reflexivity.
Defined.

(** The searches on [chat, rat] and on [rat, chat]. *)
Lemma search_length_permutation_witness :
  List.length (fst (largest_common_suffix [lit "chat"; lit "rat"]))
  = List.length (fst (largest_common_suffix [lit "rat"; lit "chat"])) /\
  exists r r',
    largest_common_suffix3 [lit "chat"; lit "rat"] = Some r /\
    largest_common_suffix3 [lit "rat"; lit "chat"] = Some r' /\
    List.length r = List.length r'.
Proof.
  apply (search_length_permutation [lit "chat"; lit "rat"]
           [lit "rat"; lit "chat"]).
  apply perm_swap.
Defined.

(** Inserting [chat] again after [chat, rat]. *)
Lemma build_trie_duplicate_witness :
  build_trie ([lit "chat"; lit "rat"] ++ [lit "chat"])
  = build_trie [lit "chat"; lit "rat"] /\
  largest_common_suffix3 ([lit "chat"; lit "rat"] ++ [lit "chat"])
  = largest_common_suffix3 [lit "chat"; lit "rat"].
Proof.
  apply (build_trie_duplicate [lit "chat"; lit "rat"] (lit "chat")).
  left; reflexivity.
Defined.
